(** * HarmonyLink: the Player state machine and the LavalinkV4 node driver

    A shallow embedding of [Player] (play / skip / pause / setLoop /
    setAutoplay / connect / destroy / autoplay / _eventHandler) and of
    [LavalinkV4] (wsClose / request), together with the properties of the
    specification that concern them.

    JavaScript objects are mutable and a rejected promise keeps every
    assignment made before the rejection, so each method is a function from
    the object's fields to an outcome (resolved or thrown) and the fields as
    they are left.  Everything that leaves the process (REST calls, emitted
    events, voice packets, socket calls) is appended to a log in call
    order; what the outside answers is read from an environment record. *)

From Stdlib Require Import String List Bool ZArith Arith Lia DecimalString.
Import ListNotations.
Local Open Scope string_scope.
Local Open Scope list_scope.

Set Implicit Arguments.

(** String concatenation stays folded under [simpl]. *)
#[local] Arguments String.append : simpl never.

(** ** JavaScript values used by the code *)

Infix "^^" := String.append (at level 60, right associativity).

(** [new Error(message)] has name "Error"; an aborted wait rejects with an
    error whose name is "AbortError". *)
Record JsError : Type := mkError { name : string; message : string }.

Definition Error (msg : string) : JsError := mkError "Error" msg.

(** Truthiness of a string: only the empty string is falsy. *)
Definition truthy (s : string) : bool := negb (s =? EmptyString).

(** Truthiness of [string | undefined]. *)
Definition truthy_opt (o : option string) : bool :=
  match o with Some s => truthy s | None => false end.

(** Template-literal rendering of a number and of a possibly undefined
    string. *)
Definition show_nat (n : nat) : string := NilEmpty.string_of_uint (Nat.to_uint n).
Definition show_opt (o : option string) : string :=
  match o with Some s => s | None => "undefined" end.

(** [Array.prototype.includes] on an array of strings. *)
Fixpoint includes (l : list string) (x : string) : bool :=
  match l with
  | [] => false
  | y :: l' => (y =? x) || includes l' x
  end.

(** ** Outcomes and the state-and-exception monad *)

Inductive Res (A : Type) : Type :=
| Ok (a : A)
| Throw (e : JsError).
Arguments Ok {A} a.
Arguments Throw {A} e.

Section Monad.
Variables E S : Type.

(** A computation reads the environment, updates the state and either
    resolves with a value or throws; the state survives a throw. *)
Definition M (A : Type) : Type := E -> S -> Res A * S.

Definition ret {A} (a : A) : M A := fun _ s => (Ok a, s).

Definition bind {A B} (m : M A) (k : A -> M B) : M B :=
  fun e s =>
    match m e s with
    | (Ok a, s') => k a e s'
    | (Throw x, s') => (Throw x, s')
    end.

Definition throw {A} (x : JsError) : M A := fun _ s => (Throw x, s).

Definition get : M S := fun _ s => (Ok s, s).
Definition gets {A} (f : S -> A) : M A := fun _ s => (Ok (f s), s).
Definition modify (f : S -> S) : M unit := fun _ s => (Ok tt, f s).
Definition ask : M E := fun e s => (Ok e, s).
Definition asks {A} (f : E -> A) : M A := fun e s => (Ok (f e), s).

(** [try { m } catch (x) { h x }] *)
Definition try_catch {A} (m : M A) (h : JsError -> M A) : M A :=
  fun e s =>
    match m e s with
    | (Ok a, s') => (Ok a, s')
    | (Throw x, s') => h x e s'
    end.

(** [try { m } finally { f }]: [f] runs on both exits; the outcome of [m]
    is kept unless [f] itself throws. *)
Definition try_finally {A} (m : M A) (f : M unit) : M A :=
  fun e s =>
    match m e s with
    | (r, s') =>
        match f e s' with
        | (Ok _, s'') => (r, s'')
        | (Throw x, s'') => (Throw x, s'')
        end
    end.
End Monad.

Arguments ret {E S A} a.
Arguments bind {E S A B} m k.
Arguments throw {E S A} x.
Arguments get {E S}.
Arguments gets {E S A} f.
Arguments modify {E S} f.
Arguments ask {E S}.
Arguments asks {E S A} f.
Arguments try_catch {E S A} m h.
Arguments try_finally {E S A} m f.

Declare Scope js_scope.
Delimit Scope js_scope with js.
Notation "x <- c ;; k" := (bind c (fun x => k))
  (at level 61, c at next level, right associativity) : js_scope.
Notation "c ;; k" := (bind c (fun _ => k))
  (at level 61, right associativity) : js_scope.

(** [wp m e s Q]: running [m] in environment [e] from state [s] ends with
    an outcome and a state that satisfy [Q]. *)
Definition wp {E S A} (m : M E S A) (e : E) (s : S) (Q : Res A -> S -> Prop) : Prop :=
  Q (fst (m e s)) (snd (m e s)).

(** ** Tracks and the queue *)

Module Track.
(** Modelled from the spec: the class [Track] is imported from "./Track"
    and is not part of the sources.  Section 3 gives it an encoded payload
    ([track], absent while the track is unresolved) and decoded metadata
    (title, source name, identifier, requester). *)
Record Info : Type := mkInfo {
  title : string;
  sourceName : string;
  identifier : string;
  requester : string
}.

Record t : Type := mk {
  track : option string;
  info : Info
}.
End Track.

Module Queue.
(** Modelled from the spec: the class [Queue] is imported from "./Queue"
    and is not part of the sources.  Section 3 describes it as an ordered
    sequence of tracks plus [currentTrack] and [previousTrack]; the player
    uses it through [length], [shift], [unshift] and [push], which are the
    methods of a JavaScript array. *)
Record t : Type := mk {
  items : list Track.t;
  currentTrack : option Track.t;
  previousTrack : option Track.t
}.

Definition empty : t := mk [] None None.

Definition length (q : t) : nat := List.length (items q).

(** [shift()] removes and returns the first element, [undefined] on an
    empty array. *)
Definition shift (q : t) : option Track.t * t :=
  match items q with
  | [] => (None, q)
  | x :: l => (Some x, mk l (currentTrack q) (previousTrack q))
  end.

Definition unshift (x : Track.t) (q : t) : t :=
  mk (x :: items q) (currentTrack q) (previousTrack q).

Definition push (x : Track.t) (q : t) : t :=
  mk (items q ++ [x]) (currentTrack q) (previousTrack q).

Definition set_currentTrack (c : option Track.t) (q : t) : t :=
  mk (items q) c (previousTrack q).

Definition set_previousTrack (c : option Track.t) (q : t) : t :=
  mk (items q) (currentTrack q) c.

(** Modelled from the spec: [_cleanUp] and [add] belong to the absent
    class, so the player takes them from its environment.  These two are
    the readings the spec suggests (destroying a player "clears the
    queue"; autoplay "enqueues" the chosen candidate) and serve as the
    environment of the concrete runs below. *)
Definition _cleanUp (q : t) : t := empty.

Definition add (x : option Track.t) (q : t) : t :=
  match x with
  | Some tr => push tr q
  | None => q
  end.
End Queue.

(** ** Enumerations of "@t/player" *)

(** Modelled from the spec: the typings of "@t/player" and
    "@t/player/connection" are not part of the sources; section 3 lists the
    members of each enumeration, and section 9 asks for the loop mode to be a
    single enum of three variants (the string aliases "NONE", "TRACK",
    "QUEUE" of the source denote the same three modes). *)
Module PlayerConnectionState.
Inductive t : Type := DESTROYED | CONNECTING | CONNECTED | DISCONNECTED.
Definition eqb (a b : t) : bool :=
  match a, b with
  | DESTROYED, DESTROYED | CONNECTING, CONNECTING
  | CONNECTED, CONNECTED | DISCONNECTED, DISCONNECTED => true
  | _, _ => false
  end.
End PlayerConnectionState.

Module VoiceConnectionState.
Inductive t : Type := DISCONNECTED | CONNECTING | CONNECTED.
Definition eqb (a b : t) : bool :=
  match a, b with
  | DISCONNECTED, DISCONNECTED | CONNECTING, CONNECTING
  | CONNECTED, CONNECTED => true
  | _, _ => false
  end.
End VoiceConnectionState.

Module DiscordVoiceStates.
Inductive t : Type := SESSION_READY | SESSION_ID_MISSING | SESSION_ENDPOINT_MISSING.
End DiscordVoiceStates.

Module PlayerLoop.
Inductive t : Type := NONE | TRACK | QUEUE.
End PlayerLoop.

(** ** Packets, events and the effect log *)

(** The [event] packets of the node, tagged by [type] (section 6); the
    handler reads [reason] of a track end and [code] of a socket close. *)
Inductive LavalinkEventPacket : Type :=
| TrackStartEvent
| TrackEndEvent (reason : string)
| TrackStuckEvent
| TrackExceptionEvent
| WebSocketClosedEvent (code : nat).

(** The [playerUpdate] packet of "typings/node". *)
Record PlayerUpdateState : Type := mkUpdate {
  upd_time : Z;
  upd_position : Z;
  upd_connected : bool;
  upd_ping : Z
}.

(** The [d] of the voice-state packet handed to the library ([op: 4]). *)
Record VoiceStateUpdate : Type := mkVoice {
  guild_id : string;
  channel_id : option string;
  self_deaf : bool;
  self_mute : bool
}.

(** What [manager.emit] is called with; the player argument is the emitting
    player itself and is left out. *)
Inductive Event : Type :=
| debug (args : list string)
| playerCreate
| playerUpdate (packet : PlayerUpdateState)
| playerDestroy (guildId : string)
| trackStart (current : option Track.t)
| trackEnd_packet (data : LavalinkEventPacket)
| trackEnd (previous : option Track.t)
| trackError (tr : option Track.t) (data : LavalinkEventPacket)
| socketClose (current : option Track.t) (data : LavalinkEventPacket)
| queueEmpty.

(** The calls on [node.rest] made by the player. *)
Inductive RestCall : Type :=
| updatePlayer_track (guildId : string) (encoded : option string)
| updatePlayer_paused (guildId : string) (paused : bool)
| destroyPlayer (guildId : string)
| loadTrack (query : string) (source : string).

Inductive Effect : Type :=
| Rest (c : RestCall)
| Emit (ev : Event)
| sendPacket (shard : string) (d : VoiceStateUpdate)
| TrackResolve (tr : Track.t)
| CustomAutoplay.

Definition is_rest (e : Effect) : bool :=
  match e with Rest _ => true | _ => false end.

Definition rest_calls (l : list Effect) : list Effect := filter is_rest l.

(** Modelled from the spec: the class [Response] is imported from
    "./Response"; it wraps a load result as a list of tracks and a load type
    (track / playlist / search / empty / error). *)
Record Response : Type := mkResponse {
  tracks : list Track.t;
  loadType : string
}.

(** ** The player *)

Module Player.

(** [ConnectionHandler.options], read by [connect] and
    [sendVoiceUpdate]. *)
Record ConnectionOptions : Type := mkConn {
  voiceRegion : option string;
  selfDeaf : bool;
  selfMute : bool
}.

(** The fields of the class. *)
Record t : Type := mk {
  voiceChannelId : string;
  guildId : string;
  shardId : string;
  isConnected : bool;
  isPlaying : bool;
  isPaused : bool;
  state : PlayerConnectionState.t;
  voiceState : VoiceConnectionState.t;
  loop : PlayerLoop.t;
  isAutoplay : bool;
  ping : Z;
  timestamp : Z;
  position : Z;
  ConnectionHandler : ConnectionOptions;
  queue : Queue.t
}.

Definition set_isConnected (v : bool) (p : t) : t :=
  mk (voiceChannelId p) (guildId p) (shardId p) v (isPlaying p) (isPaused p)
     (state p) (voiceState p) (loop p) (isAutoplay p) (ping p) (timestamp p)
     (position p) (ConnectionHandler p) (queue p).
Definition set_isPlaying (v : bool) (p : t) : t :=
  mk (voiceChannelId p) (guildId p) (shardId p) (isConnected p) v (isPaused p)
     (state p) (voiceState p) (loop p) (isAutoplay p) (ping p) (timestamp p)
     (position p) (ConnectionHandler p) (queue p).
Definition set_isPaused (v : bool) (p : t) : t :=
  mk (voiceChannelId p) (guildId p) (shardId p) (isConnected p) (isPlaying p) v
     (state p) (voiceState p) (loop p) (isAutoplay p) (ping p) (timestamp p)
     (position p) (ConnectionHandler p) (queue p).
Definition set_state (v : PlayerConnectionState.t) (p : t) : t :=
  mk (voiceChannelId p) (guildId p) (shardId p) (isConnected p) (isPlaying p)
     (isPaused p) v (voiceState p) (loop p) (isAutoplay p) (ping p)
     (timestamp p) (position p) (ConnectionHandler p) (queue p).
Definition set_voiceState (v : VoiceConnectionState.t) (p : t) : t :=
  mk (voiceChannelId p) (guildId p) (shardId p) (isConnected p) (isPlaying p)
     (isPaused p) (state p) v (loop p) (isAutoplay p) (ping p) (timestamp p)
     (position p) (ConnectionHandler p) (queue p).
Definition set_loop (v : PlayerLoop.t) (p : t) : t :=
  mk (voiceChannelId p) (guildId p) (shardId p) (isConnected p) (isPlaying p)
     (isPaused p) (state p) (voiceState p) v (isAutoplay p) (ping p)
     (timestamp p) (position p) (ConnectionHandler p) (queue p).
Definition set_isAutoplay (v : bool) (p : t) : t :=
  mk (voiceChannelId p) (guildId p) (shardId p) (isConnected p) (isPlaying p)
     (isPaused p) (state p) (voiceState p) (loop p) v (ping p) (timestamp p)
     (position p) (ConnectionHandler p) (queue p).
Definition set_ping (v : Z) (p : t) : t :=
  mk (voiceChannelId p) (guildId p) (shardId p) (isConnected p) (isPlaying p)
     (isPaused p) (state p) (voiceState p) (loop p) (isAutoplay p) v
     (timestamp p) (position p) (ConnectionHandler p) (queue p).
Definition set_timestamp (v : Z) (p : t) : t :=
  mk (voiceChannelId p) (guildId p) (shardId p) (isConnected p) (isPlaying p)
     (isPaused p) (state p) (voiceState p) (loop p) (isAutoplay p) (ping p) v
     (position p) (ConnectionHandler p) (queue p).
Definition set_position (v : Z) (p : t) : t :=
  mk (voiceChannelId p) (guildId p) (shardId p) (isConnected p) (isPlaying p)
     (isPaused p) (state p) (voiceState p) (loop p) (isAutoplay p) (ping p)
     (timestamp p) v (ConnectionHandler p) (queue p).
Definition set_queue (v : Queue.t) (p : t) : t :=
  mk (voiceChannelId p) (guildId p) (shardId p) (isConnected p) (isPlaying p)
     (isPaused p) (state p) (voiceState p) (loop p) (isAutoplay p) (ping p)
     (timestamp p) (position p) (ConnectionHandler p) v.

(** The player together with what it has done to the outside so far and
    the manager's registry of players (keys of [playerManager]). *)
Record St : Type := mkSt {
  this : t;
  log : list Effect;
  playerManager : list string
}.

(** What the collaborators answer.  None of them is in the sources. *)
Record Env : Type := mkEnv {
  (** the n-th call on [node.rest] (counted from 0) rejects with the given
      error, or resolves *)
  rest_rejects : nat -> RestCall -> option JsError;
  (** what [loadTrack query source] resolves with, wrapped in a [Response]
      for the given requester *)
  rest_loadTrack : string -> string -> string -> Response;
  (** [Track.resolve(manager)] of an unresolved track *)
  track_resolve : Track.t -> Res Track.t;
  (** [manager.options.customAutoplay], when configured: user code run on
      the player; the boolean tells whether it resolved with a [Player] *)
  customAutoplay : option (St -> Res bool * St);
  (** a draw of [Math.random()], already scaled: the draw made when the log
      has length [n] *)
  random : nat -> nat;
  (** [manager.options.voiceConnectionTimeout] *)
  voiceConnectionTimeout : nat;
  (** [manager.library.shardID(guildId)], rendered by [String] *)
  library_shardID : string -> string;
  (** [node.options.name] *)
  node_name : string;
  (** the two methods of the absent [Queue] class *)
  queue_cleanUp : Queue.t -> Queue.t;
  queue_add : option Track.t -> Queue.t -> Queue.t
}.

Definition PM (A : Type) : Type := M Env St A.

Local Open Scope js_scope.

Definition update (f : t -> t) : PM unit :=
  modify (fun s => mkSt (f (this s)) (log s) (playerManager s)).

Definition update_queue (f : Queue.t -> Queue.t) : PM unit :=
  update (fun p => set_queue (f (queue p)) p).

Definition read {A} (f : t -> A) : PM A := gets (fun s => f (this s)).

Definition effect (e : Effect) : PM unit :=
  modify (fun s => mkSt (this s) (log s ++ [e]) (playerManager s)).

(** [this.manager.emit(...)]; the boolean it returns is never used. *)
Definition emit (ev : Event) : PM unit := effect (Emit ev).

(** A call on [node.rest]: logged, then resolved or rejected as the
    environment says. *)
Definition rest (c : RestCall) : PM unit :=
  n <- gets (fun s => List.length (rest_calls (log s))) ;;
  effect (Rest c) ;;
  r <- asks (fun E => rest_rejects E n c) ;;
  match r with
  | Some err => throw err
  | None => ret tt
  end.

(** The constructor.  [options.shardId ?? String(library.shardID(guildId))]. *)
Record PlayerOptions : Type := mkOptions {
  opt_voiceId : string;
  opt_guildId : string;
  opt_shardId : option string;
  opt_connection : ConnectionOptions
}.

Definition new (E : Env) (options : PlayerOptions) : t :=
  mk (opt_voiceId options) (opt_guildId options)
     (match opt_shardId options with
      | Some s => s
      | None => library_shardID E (opt_guildId options)
      end)
     false false false
     PlayerConnectionState.DESTROYED VoiceConnectionState.DISCONNECTED
     PlayerLoop.NONE false (-1) 0 0 (opt_connection options) Queue.empty.

Definition constructor (E : Env) (options : PlayerOptions) (registry : list string) : St :=
  let p := new E options in
  mkSt p
    [ Emit (debug ["[HarmonyLink] [Player] [Connection] Player created for guild "
                   ^^ guildId p ^^ " on node " ^^ node_name E ^^ "."]);
      Emit playerCreate ]
    registry.

(** The listener installed on "playerUpdate". *)
Definition on_playerUpdate (packet : PlayerUpdateState) : PM unit :=
  update (set_isConnected (upd_connected packet)) ;;
  update (set_position (upd_position packet)) ;;
  update (set_ping (upd_ping packet)) ;;
  update (set_timestamp (upd_time packet)) ;;
  g <- read guildId ;;
  emit (debug ["[HarmonyLink] [Player] [Connection] Player update for guild " ^^ g ^^ "."]) ;;
  emit (playerUpdate packet).

(** [manager.library.sendPacket(Number(shardId), { op: 4, d }, false)]: the
    voice transport is an external capability that takes the packet and
    returns; like [manager.emit] it is recorded in the log. *)
Definition sendToDiscord (d : VoiceStateUpdate) : PM unit :=
  sh <- read shardId ;;
  effect (sendPacket sh d).

Definition sendVoiceUpdate : PM unit :=
  p <- read (fun p => p) ;;
  sendToDiscord (mkVoice (guildId p) (Some (voiceChannelId p))
                         (selfDeaf (ConnectionHandler p))
                         (selfMute (ConnectionHandler p))).

(** *** connect *)

(** How the wait on "connectionUpdate" ends: the event arrives with a
    status, or the wait rejects (the timeout aborts it with an
    "AbortError", or the emitter reports an error). *)
Inductive Handshake : Type :=
| Signalled (status : DiscordVoiceStates.t)
| Rejected (err : JsError).

Definition AbortError : JsError := mkError "AbortError" "The operation was aborted".

Definition once_connectionUpdate (h : Handshake) : PM DiscordVoiceStates.t :=
  match h with
  | Signalled status => ret status
  | Rejected err => throw err
  end.

Definition connect (h : Handshake) : PM unit :=
  p <- read (fun p => p) ;;
  if PlayerConnectionState.eqb (state p) PlayerConnectionState.CONNECTED
     || negb (truthy (voiceChannelId p))
  then ret tt
  else if VoiceConnectionState.eqb (voiceState p) VoiceConnectionState.CONNECTING
          || VoiceConnectionState.eqb (voiceState p) VoiceConnectionState.CONNECTED
  then ret tt
  else
    update (set_voiceState VoiceConnectionState.CONNECTING) ;;
    sendVoiceUpdate ;;
    emit (debug ["[HarmonyLink] [Player] [Connection] Requesting voice connection for player "
                 ^^ guildId p ^^ " in the region "
                 ^^ show_opt (voiceRegion (ConnectionHandler p)) ^^ "."]) ;;
    timeout <- asks voiceConnectionTimeout ;;
    try_finally
      (try_catch
         (status <- once_connectionUpdate h ;;
          (match status with
           | DiscordVoiceStates.SESSION_READY => ret tt
           | DiscordVoiceStates.SESSION_ID_MISSING =>
               throw (Error "[HarmonyLink] [Player] [Connection] The voice connection is not established due to missing session id")
           | DiscordVoiceStates.SESSION_ENDPOINT_MISSING =>
               throw (Error "[HarmonyLink] [Player] [Connection] The voice connection is not established due to missing connection endpoint")
           end) ;;
          update (set_voiceState VoiceConnectionState.CONNECTED))
         (fun error =>
            emit (debug ["[HarmonyLink] [Player] [Connection] Request Connection Failed"]) ;;
            if name error =? "AbortError"
            then throw (Error ("[HarmonyLink] [Player] [Connection] The voice connection is not established in "
                               ^^ show_nat timeout ^^ "ms"))
            else throw error))
      (update (set_state PlayerConnectionState.CONNECTED) ;;
       emit (debug ["[HarmonyLink] [Player] [Connection] Player connected"])).

(** *** setLoop, setAutoplay *)

(** [if (mode) this.loop = mode; else switch (this.loop) ...].  Every
    member of the enumeration is a non-empty string, hence truthy. *)
Definition setLoop (mode : option PlayerLoop.t) : PM unit :=
  match mode with
  | Some m => update (set_loop m)
  | None =>
      l <- read loop ;;
      match l with
      | PlayerLoop.NONE => update (set_loop PlayerLoop.TRACK)
      | PlayerLoop.TRACK => update (set_loop PlayerLoop.QUEUE)
      | PlayerLoop.QUEUE => update (set_loop PlayerLoop.NONE)
      end
  end.

(** [if (toggle) this.isAutoplay = toggle; else this.isAutoplay = !this.isAutoplay].
    The test is on the truthiness of [toggle]: [undefined] and [false]
    both take the second branch. *)
Definition setAutoplay (toggle : option bool) : PM unit :=
  match toggle with
  | Some true => update (set_isAutoplay true)
  | Some false | None =>
      a <- read isAutoplay ;;
      update (set_isAutoplay (negb a))
  end.

(** *** play, skip, pause *)

Definition resolve_track (tr : Track.t) : PM Track.t :=
  effect (TrackResolve tr) ;;
  r <- asks (fun E => track_resolve E tr) ;;
  match r with
  | Ok tr' => ret tr'
  | Throw err => throw err
  end.

Definition play : PM unit :=
  q <- read queue ;;
  if Nat.eqb (Queue.length q) 0 then ret tt
  else
    (let (x, q') := Queue.shift q in
     update_queue (fun _ => Queue.set_currentTrack x q')) ;;
    cur <- read (fun p => Queue.currentTrack (queue p)) ;;
    (match cur with
     | Some tr =>
         if negb (truthy_opt (Track.track tr))
         then tr' <- resolve_track tr ;;
              update_queue (Queue.set_currentTrack (Some tr'))
         else ret tt
     | None => ret tt
     end) ;;
    cur <- read (fun p => Queue.currentTrack (queue p)) ;;
    g <- read guildId ;;
    rest (updatePlayer_track g
            (match cur with Some tr => Track.track tr | None => None end)) ;;
    update (set_isPlaying true) ;;
    update (set_position 0) ;;
    update (set_isPaused false).

Definition skip : PM unit :=
  q <- read queue ;;
  if Nat.eqb (Queue.length q) 0 then ret tt
  else
    g <- read guildId ;;
    emit (debug ["[HarmonyLink] [Player] [Connection] Skipping track for player " ^^ g]) ;;
    update (set_position 0) ;;
    update (set_isPlaying false) ;;
    update (set_isPaused true) ;;
    rest (updatePlayer_track g None).

Definition pause (toggle : bool) : PM unit :=
  g <- read guildId ;;
  rest (updatePlayer_paused g toggle) ;;
  update (set_isPaused toggle) ;;
  update (set_isPlaying (negb toggle)).

(** *** disconnect, destroy, checkDestroyed *)

Definition disconnect : PM unit :=
  v <- read voiceChannelId ;;
  if negb (truthy v) then ret tt
  else
    cleanUp <- asks queue_cleanUp ;;
    update_queue cleanUp ;;
    skip ;;
    update (set_isConnected false) ;;
    update (set_state PlayerConnectionState.DISCONNECTED) ;;
    update (set_voiceState VoiceConnectionState.DISCONNECTED) ;;
    g <- read guildId ;;
    sendToDiscord (mkVoice g None false false).

Definition PlayerDestroyedError : JsError :=
  Error "[HarmonyLink] [Player] [Connection] Player is already destroyed".

Definition checkDestroyed : PM unit :=
  st <- read state ;;
  if PlayerConnectionState.eqb st PlayerConnectionState.DESTROYED
  then throw PlayerDestroyedError
  else ret tt.

(** [Map.prototype.delete] on the registry. *)
Definition playerManager_delete (g : string) : PM bool :=
  reg <- gets playerManager ;;
  modify (fun s => mkSt (this s) (log s)
                        (filter (fun k => negb (k =? g)) (playerManager s))) ;;
  ret (includes reg g).

Definition destroy : PM bool :=
  disconnect ;;
  g <- read guildId ;;
  rest (destroyPlayer g) ;;
  emit (debug [g; "[HarmonyLink] [Player] [Connection] Player destroyed"]) ;;
  emit (playerDestroy g) ;;
  playerManager_delete g.

(** *** resolve, autoplay *)

Definition resolve (query source requester : string) : PM Response :=
  rest (loadTrack query source) ;;
  asks (fun E => rest_loadTrack E query source requester).

(** [Math.floor(Math.random() * Math.floor(len))]: an index below [len],
    and 0 when [len] is 0. *)
Definition random_index (len : nat) : PM nat :=
  n <- gets (fun s => List.length (log s)) ;;
  r <- asks (fun E => random E n) ;;
  ret (match len with 0 => 0 | _ => r mod len end).

(** [!response.tracks.length || response.tracks.length === 0
     || ["error", "empty"].includes(response.loadType)] *)
Definition load_unusable (r : Response) : bool :=
  Nat.eqb (List.length (tracks r)) 0 || includes ["error"; "empty"] (loadType r).

Definition run_customAutoplay (f : St -> Res bool * St) : PM bool :=
  fun _ s => f (mkSt (this s) (log s ++ [CustomAutoplay]) (playerManager s)).

Definition enqueue_and_play (candidates : list Track.t) : PM unit :=
  k <- random_index (List.length candidates) ;;
  add <- asks queue_add ;;
  update_queue (add (nth_error candidates k)) ;;
  play.

Definition autoplay (previousTrack : option Track.t) : PM unit :=
  try_catch
    (hook <- asks customAutoplay ;;
     handled <- (match hook with
                 | Some f => run_customAutoplay f
                 | None => ret false
                 end) ;;
     if (handled : bool) then ret tt
     else
       q <- read queue ;;
       match (match previousTrack with
              | Some tr => Some tr
              | None => Queue.previousTrack q
              end) with
       | None => ret tt
       | Some prevTrack =>
           let i := Track.info prevTrack in
           if Track.sourceName i =? "soundcloud" then
             response <- resolve (Track.title i) "scsearch" (Track.requester i) ;;
             if load_unusable response then skip
             else enqueue_and_play (tracks response)
           else
             let id :=
               if truthy (Track.identifier i) then Track.identifier i
               else show_opt (option_map (fun c => Track.identifier (Track.info c))
                                         (Queue.currentTrack q)) in
             let searchedURL :=
               "https://www.youtube.com/watch?v=" ^^ id ^^ "&list=RD" ^^ id in
             response <- resolve searchedURL "ytmsearch" (Track.requester i) ;;
             if load_unusable response then skip
             else enqueue_and_play (tl (tracks response))
       end)
    (fun _ => skip).

(** *** _eventHandler *)

Definition debug_for_player (what : string) : PM unit :=
  g <- read guildId ;;
  emit (debug ["[HarmonyLink] [Player] [Connection] " ^^ what ^^ " for player " ^^ g]).

Definition on_TrackEnd (data : LavalinkEventPacket) (reason : string) : PM unit :=
  update (set_isPlaying false) ;;
  update (set_isPaused true) ;;
  update_queue (fun q =>
    match Queue.currentTrack q with
    | Some c => Queue.set_previousTrack (Some c) q
    | None => q
    end) ;;
  update_queue (Queue.set_currentTrack None) ;;
  if reason =? "replaced" then
    debug_for_player "Track replaced" ;;
    emit (trackEnd_packet data)
  else if includes ["loadFailed"; "cleanup"] reason then
    q <- read queue ;;
    if Nat.eqb (Queue.length q) 0 then emit queueEmpty
    else
      debug_for_player "Track ended" ;;
      emit (trackEnd (Queue.previousTrack q)) ;;
      play
  else
    l <- read loop ;;
    q <- read queue ;;
    match l with
    | PlayerLoop.TRACK =>
        match Queue.previousTrack q with
        | None => emit queueEmpty
        | Some prev =>
            debug_for_player "Track looped" ;;
            emit (trackEnd (Some prev)) ;;
            update_queue (Queue.unshift prev) ;;
            play
        end
    | PlayerLoop.QUEUE =>
        match Queue.previousTrack q with
        | None => emit queueEmpty
        | Some prev =>
            debug_for_player "Queue looped" ;;
            emit (trackEnd (Some prev)) ;;
            update_queue (Queue.push prev) ;;
            play
        end
    | PlayerLoop.NONE =>
        a <- read isAutoplay ;;
        if (a : bool) then autoplay None
        else if Nat.eqb (Queue.length q) 0 then emit queueEmpty
        else
          debug_for_player "Track ended" ;;
          emit (trackEnd (Queue.previousTrack q)) ;;
          play
    end.

Definition _eventHandler (data : LavalinkEventPacket) : PM unit :=
  g <- read guildId ;;
  emit (debug ["[HarmonyLink] [Player] [Connection] Event received for player " ^^ g]) ;;
  match data with
  | TrackStartEvent =>
      update (set_isPlaying true) ;;
      update (set_isPaused false) ;;
      update (set_position 0) ;;
      debug_for_player "Track started" ;;
      cur <- read (fun p => Queue.currentTrack (queue p)) ;;
      emit (trackStart cur)
  | TrackEndEvent reason => on_TrackEnd data reason
  | TrackStuckEvent =>
      cur <- read (fun p => Queue.currentTrack (queue p)) ;;
      emit (trackError cur data) ;;
      skip
  | TrackExceptionEvent =>
      prev <- read (fun p => Queue.previousTrack (queue p)) ;;
      emit (trackError prev data) ;;
      skip
  | WebSocketClosedEvent code =>
      (if existsb (Nat.eqb code) [4015; 4009; 4006] then sendVoiceUpdate else ret tt) ;;
      cur <- read (fun p => Queue.currentTrack (queue p)) ;;
      emit (socketClose cur data) ;;
      emit (debug ["[HarmonyLink] [Player] [Connection] Websocket closed for player "
                   ^^ g ^^ " with status code " ^^ show_nat code]) ;;
      pause true
  end.
End Player.

(** ** The LavalinkV4 node driver *)

Module LavalinkV4.

(** Modelled from the spec: [TrackData] comes from "@t/node/rest", which is
    not part of the sources; it is the decoded metadata of one encoded
    track. *)
Record TrackData : Type := mkTrackData {
  encoded : string;
  td_title : string;
  td_identifier : string
}.

(** A JSON document as far as the driver's callers tell them apart: an
    array of decoded tracks, or anything else (kept as its text). *)
Inductive Json : Type :=
| JTracks (l : list TrackData)
| JOther (raw : string).

(** What [request] resolves with when it is not [undefined]. *)
Inductive Payload : Type :=
| json (j : Json)
| text (s : string).

(** [options.params]: a query string or a record. *)
Inductive Params : Type :=
| params_string (s : string)
| params_record (r : list (string * string)).

(** [options.body] when truthy: the array of encoded tracks of a decode
    request, or any other value (by its JSON text). *)
Inductive Body : Type :=
| body_strings (l : list string)
| body_other (raw : string).

Inductive Method : Type := GET | POST | PUT | DELETE | PATCH.

Definition show_method (m : Method) : string :=
  match m with
  | GET => "GET" | POST => "POST" | PUT => "PUT"
  | DELETE => "DELETE" | PATCH => "PATCH"
  end.

Definition Headers : Type := list (string * string).

Record HarmonyLinkRequesterOptions : Type := mkOptions {
  path : string;
  method : Method;
  params : option Params;
  body : option Body;
  headers : Headers
}.

(** The second argument of [fetch] together with its URL. *)
Record FetchCall : Type := mkFetch {
  f_url : string;
  f_search : option Params;
  f_method : Method;
  f_headers : Headers;
  f_body : option Body
}.

Record FetchResponse : Type := mkResponse {
  status : nat;
  statusText : string;
  content_type : option string;
  res_json : Res Json;
  res_text : string
}.

Record NodeOptions : Type := mkNode {
  node_name : string;
  host : string;
  port : nat;
  secure : option bool;
  password : string
}.

(** The parts of the manager the driver reads. *)
Record HarmonyLink : Type := mkManager {
  config_name : string;
  config_version : string;
  config_github : string;
  library_userID : option string;
  options_resume : option bool
}.

(** The socket handle: the listeners registered on it. *)
Record WebSocket : Type := mkSocket {
  ws_url : string;
  ws_headers : Headers;
  listeners : list string
}.

Record t : Type := mk {
  clientId : string;
  wsUrl : string;
  httpUrl : string;
  manager : option HarmonyLink;
  node : option NodeOptions;
  sessionId : option string;
  wsClient : option WebSocket
}.

(** The field initialisers of the class. *)
Definition new : t := mk EmptyString EmptyString EmptyString None None None None.

Inductive Effect : Type :=
| ws_new (url : string) (h : Headers)
| ws_close (code : nat) (reason : string)
| ws_removeAllListeners
| emit_nodeDisconnect (n : option NodeOptions)
| emit_debug (msg : string)
| fetch (c : FetchCall).

Definition is_fetch (e : Effect) : bool :=
  match e with fetch _ => true | _ => false end.

Definition is_nodeDisconnect (e : Effect) : bool :=
  match e with emit_nodeDisconnect _ => true | _ => false end.

Definition is_ws_close (e : Effect) : bool :=
  match e with ws_close _ _ => true | _ => false end.

Record St : Type := mkSt {
  this : t;
  log : list Effect
}.

(** The collaborators: the track decoder ([Decoder], not in the sources)
    and the remote node behind [globalThis.fetch]. *)
Record Env : Type := mkEnv {
  decoder : string -> option TrackData;
  (** the n-th [fetch] (counted from 0) resolves with a response or
      rejects *)
  fetch_answer : nat -> FetchCall -> Res FetchResponse
}.

Definition DM (A : Type) : Type := M Env St A.

Local Open Scope js_scope.

Definition update (f : t -> t) : DM unit :=
  modify (fun s => mkSt (f (this s)) (log s)).

Definition effect (e : Effect) : DM unit :=
  modify (fun s => mkSt (this s) (log s ++ [e])).

Definition set_wsClient (w : option WebSocket) (d : t) : t :=
  mk (clientId d) (wsUrl d) (httpUrl d) (manager d) (node d) (sessionId d) w.

Definition isRegistered (d : t) : bool :=
  match manager d, node d with
  | Some _, Some _ =>
      negb (Nat.eqb (String.length (wsUrl d)) 0)
      && negb (Nat.eqb (String.length (httpUrl d)) 0)
  | _, _ => false
  end.

Definition init (m : HarmonyLink) (n : NodeOptions) : DM unit :=
  let sec := match secure n with Some b => b | None => false end in
  update (fun d =>
    mk (config_name m ^^ "/" ^^ config_version m ^^ " (" ^^ config_github m ^^ ")")
       ((if sec then "wss" else "ws") ^^ "://" ^^ host n ^^ ":" ^^ show_nat (port n))
       ((if sec then "https" else "http") ^^ "://" ^^ host n ^^ ":" ^^ show_nat (port n))
       (Some m) (Some n) (sessionId d) (wsClient d)).

(** [AbstractNodeDriver.defaultHeaders]; [type] is [NodeType.LavaLinkV4]
    in this class, so the NodeLink header is never added.  Reading
    [this.node.options] of a null node is a TypeError. *)
Definition defaultHeaders : DM Headers :=
  d <- gets this ;;
  match node d with
  | None => throw (mkError "TypeError" "Cannot read properties of null (reading 'options')")
  | Some n =>
      ret [("Authorization", password n);
           ("User-Agent", clientId d);
           ("Content-Type", "application/json")]
  end.

(** *** wsClose *)

Definition wsClose (withoutEmit : bool) : DM unit :=
  d <- gets this ;;
  (if withoutEmit then
     (match wsClient d with
      | Some _ => effect (ws_close 1006 "Self Closed")
      | None => ret tt
      end) ;;
     (match manager d with
      | Some _ => effect (emit_nodeDisconnect (node d))
      | None => ret tt
      end)
   else ret tt) ;;
  (match wsClient d with
   | Some _ => effect ws_removeAllListeners
   | None => ret tt
   end) ;;
  update (set_wsClient None).

(** *** connect *)

Definition not_registered : JsError :=
  Error "Node is not registered. Please register it by using <AbstractNodeDriver>.init()".

Definition connect : DM WebSocket :=
  d <- gets this ;;
  if negb (isRegistered d) then throw not_registered
  else
    match manager d, node d with
    | Some m, Some n =>
        if negb (truthy_opt (library_userID m))
        then throw (Error "User ID is not set. Please set it before connecting. Is this really a valid library?")
        else
          let shouldResume := match options_resume m with Some b => b | None => false end in
          let headers :=
            [("Authorization", password n);
             ("User-Id", show_opt (library_userID m));
             ("Client-Name", clientId d)]
            ++ (if shouldResume && truthy_opt (sessionId d)
                then [("Session-Id", show_opt (sessionId d))] else []) in
          let ws := mkSocket (wsUrl d ^^ "/v4/websocket") headers
                             ["open"; "message"; "error"; "close"] in
          effect (ws_new (ws_url ws) headers) ;;
          update (set_wsClient (Some ws)) ;;
          ret ws
    | _, _ => throw not_registered
    end.

(** *** request *)

(** [String.prototype.includes] *)
Fixpoint str_includes (sub s : string) : bool :=
  String.prefix sub s
  || match s with
     | EmptyString => false
     | String _ s' => str_includes sub s'
     end.

Fixpoint lookup (k : string) (r : list (string * string)) : option string :=
  match r with
  | [] => None
  | (k', v) :: r' => if k' =? k then Some v else lookup k r'
  end.

(** Object spread [{...a, ...b}]: the keys of [a] in place, with the
    values of [b] where it has the key, then the new keys of [b]. *)
Definition spread (a b : Headers) : Headers :=
  map (fun kv => match lookup (fst kv) b with
                 | Some v => (fst kv, v)
                 | None => kv
                 end) a
  ++ filter (fun kv => match lookup (fst kv) a with
                       | Some _ => false
                       | None => true
                       end) b.

(** [String(options.body)] after [JSON.stringify] (string escapes are not
    rendered). *)
Definition quote : string := String (Ascii.ascii_of_nat 34) EmptyString.

Definition show_body (b : Body) : string :=
  match b with
  | body_strings l =>
      "[" ^^ String.concat "," (map (fun x => quote ^^ x ^^ quote) l) ^^ "]"
  | body_other raw => raw
  end.

Definition show_payload (b : option Body) : string :=
  match b with Some x => show_body x | None => "{}" end.

(** A [fetch]: logged, then answered by the environment. *)
Definition do_fetch (c : FetchCall) : DM FetchResponse :=
  n <- gets (fun s => List.length (filter is_fetch (log s))) ;;
  effect (fetch c) ;;
  r <- asks (fun E => fetch_answer E n c) ;;
  match r with
  | Ok res => ret res
  | Throw err => throw err
  end.

Definition read_json (res : FetchResponse) : DM Payload :=
  match res_json res with
  | Ok j => ret (json j)
  | Throw err => throw err
  end.

(** [content-type === "application/json" ? await res.json() : await res.text()] *)
Definition negotiated (res : FetchResponse) : DM Payload :=
  match content_type res with
  | Some ct => if ct =? "application/json" then read_json res
               else ret (text (res_text res))
  | None => ret (text (res_text res))
  end.

(** The loop over the batch: each entry goes to [data] when the decoder
    resolves it and to [failedTracks] otherwise, both in batch order. *)
Fixpoint decode_batch (dec : string -> option TrackData) (l : list string)
  : list TrackData * list string :=
  match l with
  | [] => ([], [])
  | track :: l' =>
      let (data, failedTracks) := decode_batch dec l' in
      match dec track with
      | Some trackData => (trackData :: data, failedTracks)
      | None => (data, track :: failedTracks)
      end
  end.

Definition debug_returned (options : HarmonyLinkRequesterOptions) (what : string) : DM unit :=
  d <- gets this ;;
  match manager d with
  | None => ret tt
  | Some _ =>
      effect (emit_debug
        ("[HarmonyLink] [Node Driver " ^^ show_opt (option_map node_name (node d)) ^^ "] "
         ^^ show_method (method options) ^^ " request to " ^^ path options
         ^^ " returned " ^^ what ^^ ". payload=" ^^ show_payload (body options)))
  end.

(** [if (options.params) url.search = ...]: an empty string is falsy. *)
Definition search_of (p : option Params) : option Params :=
  match p with
  | Some (params_string s) => if truthy s then p else None
  | _ => p
  end.

Definition request (options : HarmonyLinkRequesterOptions) : DM (option Payload) :=
  d <- gets this ;;
  if negb (isRegistered d) then throw not_registered
  else if str_includes "/sessions" (path options)
          && match sessionId d with None => true | Some _ => false end
  then throw (Error ("[HarmonyLink] [Node " ^^ show_opt (option_map node_name (node d))
                     ^^ "] Session ID is not set. Please wait for LavaLinkV4 to be connected."))
  else if String.prefix "/version" (path options) then
    h <- defaultHeaders ;;
    response <- do_fetch (mkFetch (httpUrl d ^^ path options) None GET h None) ;;
    p <- negotiated response ;;
    ret (Some p)
  else
    let url := httpUrl d ^^ "/v4" ^^ path options in
    h <- defaultHeaders ;;
    let headers := spread h (headers options) in
    if (path options =? "/decodetrack") || (path options =? "/decodetracks") then
      dec <- asks decoder ;;
      split <-
        (match body options with
         | Some (body_strings l) => ret (decode_batch dec l)
         | Some (body_other _) =>
             throw (mkError "TypeError" "JSON.parse(...).map is not a function")
         | None =>
             (* [this.decoder(options.params.encodedTrack)]: the decoder
                takes a string; without one the call is a TypeError *)
             match params options with
             | Some (params_record r) =>
                 match lookup "encodedTrack" r with
                 | Some track => ret (decode_batch dec [track])
                 | None => throw (mkError "TypeError" "encodedTrack is undefined")
                 end
             | _ => throw (mkError "TypeError" "encodedTrack is undefined")
             end
         end) ;;
      let (data, failedTracks) := (split : list TrackData * list string) in
      if Nat.ltb 0 (List.length failedTracks) then
        res <- do_fetch (mkFetch (httpUrl d ^^ "/v4/decodetracks") None POST headers
                                 (Some (body_strings failedTracks))) ;;
        p <- read_json res ;;
        ret (Some p)
      else ret (Some (json (JTracks data)))
    else
      res <- do_fetch (mkFetch url (search_of (params options)) (method options)
                               headers (body options)) ;;
      match status res with
      | 204 => debug_returned options "204 No Content" ;; ret None
      | 200 =>
          data <- negotiated res ;;
          debug_returned options "200 OK" ;;
          ret (Some data)
      | _ =>
          debug_returned options (show_nat (status res) ^^ " " ^^ statusText res) ;;
          ret None
      end.

(** *** updateSessions *)

(** The options carry [resuming] and [timeout] under [data], a field
    [request] never reads: the PATCH is sent without a body. *)
Definition updateSessions (sessionId : string) (mode : bool) (timeout : nat) : DM unit :=
  request (mkOptions ("/sessions/" ^^ sessionId) PATCH None None []) ;;
  d <- gets this ;;
  match manager d with
  | None => ret tt
  | Some _ =>
      effect (emit_debug ("[HarmonyLink] [Node "
                          ^^ show_opt (option_map node_name (node d))
                          ^^ "] Updated the session."))
  end.
End LavalinkV4.

(** ** Command sequences and sample data *)

(** The user-issued commands of the playback state machine; [Enqueue] is the
    caller's [player.queue.push(track)] between two commands. *)
Inductive Command : Type :=
| Play
| Skip
| Pause (toggle : bool)
| Enqueue (tr : Track.t).

Definition call (c : Command) : Player.PM unit :=
  match c with
  | Play => Player.play
  | Skip => Player.skip
  | Pause toggle => Player.pause toggle
  | Enqueue tr => Player.update_queue (Queue.push tr)
  end.

(** One command after the other, the caller going on after a rejected
    call. *)
Fixpoint run (E : Player.Env) (cs : list Command) (s : Player.St) : Player.St :=
  match cs with
  | [] => s
  | c :: cs' => run E cs' (snd (call c E s))
  end.

(** [m] called [n] times in a row. *)
Fixpoint times (n : nat) (m : Player.PM unit) (E : Player.Env) (s : Player.St) : Player.St :=
  match n with
  | 0 => s
  | S n' => snd (m E (times n' m E s))
  end.

(** The cycle of the specification: NONE -> TRACK -> QUEUE -> NONE. *)
Definition spec_cycle (l : PlayerLoop.t) : PlayerLoop.t :=
  match l with
  | PlayerLoop.NONE => PlayerLoop.TRACK
  | PlayerLoop.TRACK => PlayerLoop.QUEUE
  | PlayerLoop.QUEUE => PlayerLoop.NONE
  end.

(** An environment in which every REST call resolves, tracks resolve to
    themselves and no autoplay hook is configured. *)
Definition calm : Player.Env :=
  Player.mkEnv (fun _ _ => None)
               (fun _ _ _ => mkResponse [] "empty")
               (fun tr => Ok tr)
               None
               (fun _ => 0)
               2000
               (fun _ => "0")
               "main"
               Queue._cleanUp
               Queue.add.

Definition sample_options : Player.PlayerOptions :=
  Player.mkOptions "voice-1" "guild-1" None (Player.mkConn None false false).

(** A player as the constructor leaves it, registered under its guild. *)
Definition fresh : Player.St := Player.constructor calm sample_options ["guild-1"].

Definition track_A : Track.t :=
  Track.mk (Some "QAAA") (Track.mkInfo "A" "youtube" "idA" "user").
Definition track_B : Track.t :=
  Track.mk (Some "QBBB") (Track.mkInfo "B" "youtube" "idB" "user").

Definition with_queue (q : Queue.t) (s : Player.St) : Player.St :=
  Player.mkSt (Player.set_queue q (Player.this s)) (Player.log s) (Player.playerManager s).

Definition with_loop (l : PlayerLoop.t) (s : Player.St) : Player.St :=
  Player.mkSt (Player.set_loop l (Player.this s)) (Player.log s) (Player.playerManager s).

(** [isPlaying] and [isPaused] are not both true. *)
Definition exclusive (p : Player.t) : Prop :=
  Player.isPlaying p && Player.isPaused p = false.

(** Every call on [node.rest] resolves. *)
Definition rest_resolves (E : Player.Env) : Prop :=
  forall n c, Player.rest_rejects E n c = None.

(** The initial guards of connect() let the call through. *)
Definition passes_guards (p : Player.t) : Prop :=
  Player.state p <> PlayerConnectionState.CONNECTED
  /\ truthy (Player.voiceChannelId p) = true
  /\ Player.voiceState p = VoiceConnectionState.DISCONNECTED.

(** destroy() refused on the destroyed-guard: it throws the error of
    [checkDestroyed] and leaves the player and the REST log as they were. *)
Definition destroy_refused (E : Player.Env) (s : Player.St) : Prop :=
  fst (Player.destroy E s) = Throw Player.PlayerDestroyedError
  /\ rest_calls (Player.log (snd (Player.destroy E s))) = rest_calls (Player.log s)
  /\ Player.this (snd (Player.destroy E s)) = Player.this s.

(** A player in loop mode TRACK with the given pending tracks and current
    track. *)
Definition looping (pending : list Track.t) (current : Track.t) : Player.St :=
  with_loop PlayerLoop.TRACK (with_queue (Queue.mk pending (Some current) None) fresh).

(** A reason of a track end that is handled by the loop policy. *)
Definition loop_policy_reason (reason : string) : Prop :=
  (reason =? "replaced") = false /\ includes ["loadFailed"; "cleanup"] reason = false.

(** ** Sample data for the driver *)

Definition sample_manager : LavalinkV4.HarmonyLink :=
  LavalinkV4.mkManager "HarmonyLink" "1.0.0" "https://github.com/Olozzy/HarmonyLink"
                       (Some "bot-1") (Some false).

Definition sample_node : LavalinkV4.NodeOptions :=
  LavalinkV4.mkNode "main" "localhost" 2333 None "youshallnotpass".

(** A decoder that resolves the strings starting with "Q" (as base64 of a
    track does) and nothing else. *)
Definition sample_decoder (encoded : string) : option LavalinkV4.TrackData :=
  if String.prefix "Q" encoded
  then Some (LavalinkV4.mkTrackData encoded ("title of " ^^ encoded) ("id of " ^^ encoded))
  else None.

(** A node that answers every request with status 200 and the JSON array of
    the tracks it can decode from the request's body: none of a malformed
    entry. *)
Definition remote_tracks (c : LavalinkV4.FetchCall) : list LavalinkV4.TrackData :=
  match LavalinkV4.f_body c with
  | Some (LavalinkV4.body_strings l) => fst (LavalinkV4.decode_batch sample_decoder l)
  | _ => []
  end.

Definition sample_remote : LavalinkV4.Env :=
  LavalinkV4.mkEnv sample_decoder
    (fun _ c => Ok (LavalinkV4.mkResponse 200 "OK" (Some "application/json")
                      (Ok (LavalinkV4.JTracks (remote_tracks c))) EmptyString)).

(** The driver after [init], and after [init] and [connect]. *)
Definition registered : LavalinkV4.St :=
  snd (LavalinkV4.init sample_manager sample_node sample_remote
         (LavalinkV4.mkSt LavalinkV4.new [])).

Definition connected : LavalinkV4.St :=
  snd (LavalinkV4.connect sample_remote registered).

(** A decode request for a batch of three encoded tracks, the second one
    malformed. *)
Definition sample_batch : list string := ["QAAA"; "not-a-track"; "QBBB"].

Definition decode_request (batch : list string) : LavalinkV4.HarmonyLinkRequesterOptions :=
  LavalinkV4.mkOptions "/decodetracks" LavalinkV4.POST None
                       (Some (LavalinkV4.body_strings batch)) [].

(** The remote decode call made for the entries [failed] by driver [d]. *)
Definition remote_decode_call (d : LavalinkV4.t) (extra : LavalinkV4.Headers)
                              (failed : list string) : LavalinkV4.FetchCall :=
  LavalinkV4.mkFetch (LavalinkV4.httpUrl d ^^ "/v4/decodetracks") None LavalinkV4.POST
    (LavalinkV4.spread
       [("Authorization", match LavalinkV4.node d with
                          | Some n => LavalinkV4.password n
                          | None => EmptyString
                          end);
        ("User-Agent", LavalinkV4.clientId d);
        ("Content-Type", "application/json")]
       extra)
    (Some (LavalinkV4.body_strings failed)).

(** ** Entry points of the player and further sample data *)

(** Every method of the class a host application or the node session can
    call, with the two listeners the constructor installs. *)
Inductive Call : Type :=
| call_connect (h : Player.Handshake)
| call_setLoop (mode : option PlayerLoop.t)
| call_setAutoplay (toggle : option bool)
| call_play
| call_destroy
| call_skip
| call_pause (toggle : bool)
| call_resolve (query source requester : string)
| call_autoplay (previousTrack : option Track.t)
| call_event (data : LavalinkEventPacket)
| call_playerUpdate (packet : PlayerUpdateState).

Definition perform (c : Call) : Player.PM unit :=
  match c with
  | call_connect h => Player.connect h
  | call_setLoop mode => Player.setLoop mode
  | call_setAutoplay toggle => Player.setAutoplay toggle
  | call_play => Player.play
  | call_destroy => bind Player.destroy (fun _ => ret tt)
  | call_skip => Player.skip
  | call_pause toggle => Player.pause toggle
  | call_resolve query source requester =>
      bind (Player.resolve query source requester) (fun _ => ret tt)
  | call_autoplay previousTrack => Player.autoplay previousTrack
  | call_event data => Player._eventHandler data
  | call_playerUpdate packet => Player.on_playerUpdate packet
  end.

(** The user's autoplay hook, when one is configured, keeps [P]. *)
Definition hook_keeps (P : Player.St -> Prop) (E : Player.Env) : Prop :=
  match Player.customAutoplay E with
  | None => True
  | Some f => forall s, P s -> P (snd (f s))
  end.


(** The playback flags of the player exclude each other. *)
Definition steady (s : Player.St) : Prop := exclusive (Player.this s).

(** The tracks of a queue in the order they will be heard: the current one,
    then the pending ones. *)
Definition play_order (q : Queue.t) : list Track.t :=
  match Queue.currentTrack q with
  | Some c => c :: Queue.items q
  | None => Queue.items q
  end.

(** The previous track once the current one has been archived: the current
    track when there is one, else the previous track as it was. *)
Definition archived (q : Queue.t) : option Track.t :=
  match Queue.currentTrack q with
  | Some c => Some c
  | None => Queue.previousTrack q
  end.

(** The first track moved to the back. *)
Definition rotate (l : list Track.t) : list Track.t :=
  match l with
  | [] => []
  | x :: l' => l' ++ [x]
  end.

(** A track that needs no lazy resolution before it is played. *)
Definition resolved (tr : Track.t) : Prop := truthy_opt (Track.track tr) = true.

(** The handler run on the end of a track that finished. *)
Definition finish (E : Player.Env) (s : Player.St) : Player.St :=
  snd (Player._eventHandler (TrackEndEvent "finished") E s).

(** The three fields of the playback flags. *)
Definition flags (p : Player.t) : bool * bool * Z :=
  (Player.isPlaying p, Player.isPaused p, Player.position p).

Definition network_error : JsError := Error "fetch failed".

(** An environment like [calm] in which every REST call rejects. *)
Definition offline : Player.Env :=
  Player.mkEnv (fun _ _ => Some network_error)
               (Player.rest_loadTrack calm)
               (Player.track_resolve calm)
               None
               (Player.random calm)
               (Player.voiceConnectionTimeout calm)
               (Player.library_shardID calm)
               (Player.node_name calm)
               Queue._cleanUp
               Queue.add.

(** An environment like [calm] in which lazy resolution rejects. *)
Definition unresolvable : Player.Env :=
  Player.mkEnv (fun _ _ => None)
               (Player.rest_loadTrack calm)
               (fun _ => Throw (Error "No track found"))
               None
               (Player.random calm)
               (Player.voiceConnectionTimeout calm)
               (Player.library_shardID calm)
               (Player.node_name calm)
               Queue._cleanUp
               Queue.add.

(** A track known by its search query only. *)
Definition track_U : Track.t :=
  Track.mk None (Track.mkInfo "U" "youtube" "idU" "user").

(** A resolved track that comes from SoundCloud. *)
Definition track_S : Track.t :=
  Track.mk (Some "QSSS") (Track.mkInfo "S" "soundcloud" "idS" "user").

(** A player with the given pending tracks and nothing playing. *)
Definition queued (pending : list Track.t) : Player.St :=
  with_queue (Queue.mk pending None None) fresh.

(** ** Further sample data for the driver *)

(** A node that answers every request with the given status, as JSON text
    that does not parse as an array of tracks. *)
Definition remote_status (st : nat) (statusText : string) : LavalinkV4.Env :=
  LavalinkV4.mkEnv sample_decoder
    (fun _ _ => Ok (LavalinkV4.mkResponse st statusText (Some "application/json")
                      (Ok (LavalinkV4.JOther "{}")) "{}")).

(** A request to load tracks for a search. *)
Definition load_request : LavalinkV4.HarmonyLinkRequesterOptions :=
  LavalinkV4.mkOptions "/loadtracks" LavalinkV4.GET
    (Some (LavalinkV4.params_record [("identifier", "ytsearch:hello")])) None [].

(** A decode request for one encoded track, passed as a query parameter. *)
Definition decode_one_request (track : string) : LavalinkV4.HarmonyLinkRequesterOptions :=
  LavalinkV4.mkOptions "/decodetrack" LavalinkV4.GET
    (Some (LavalinkV4.params_record [("encodedTrack", track)])) None [].

(** The headers every REST call of driver [d] starts from. *)
Definition default_headers (d : LavalinkV4.t) : LavalinkV4.Headers :=
  [("Authorization", match LavalinkV4.node d with
                     | Some n => LavalinkV4.password n
                     | None => EmptyString
                     end);
   ("User-Agent", LavalinkV4.clientId d);
   ("Content-Type", "application/json")].



(** ** Rules for running a computation one step at a time *)

Section Rules.
Variables E S : Type.
Variables (e : E) (s : S).

Lemma wp_ret A (a : A) Q : Q (Ok a) s -> wp (ret a) e s Q.
Proof. exact (fun H => H). Qed.

Lemma wp_throw A (x : JsError) (Q : Res A -> S -> Prop) :
  Q (Throw x) s -> wp (throw x) e s Q.
Proof. exact (fun H => H). Qed.

Lemma wp_gets A (f : S -> A) Q : Q (Ok (f s)) s -> wp (gets f) e s Q.
Proof. exact (fun H => H). Qed.

Lemma wp_asks A (f : E -> A) Q : Q (Ok (f e)) s -> wp (asks f) e s Q.
Proof. exact (fun H => H). Qed.

Lemma wp_modify (f : S -> S) Q : Q (Ok tt) (f s) -> wp (modify f) e s Q.
Proof. exact (fun H => H). Qed.

Lemma wp_bind A B (m : M E S A) (k : A -> M E S B) Q :
  wp m e s (fun r s' =>
              match r with
              | Ok a => wp (k a) e s' Q
              | Throw x => Q (Throw x) s'
              end) ->
  wp (bind m k) e s Q.
Proof.
  unfold wp, bind. destruct (m e s) as [[a|x] s']; simpl; auto.
Qed.

Lemma wp_try_catch A (m : M E S A) (h : JsError -> M E S A) Q :
  wp m e s (fun r s' =>
              match r with
              | Ok a => Q (Ok a) s'
              | Throw x => wp (h x) e s' Q
              end) ->
  wp (try_catch m h) e s Q.
Proof.
  unfold wp, try_catch. destruct (m e s) as [[a|x] s']; simpl; auto.
Qed.

Lemma wp_try_finally A (m : M E S A) (f : M E S unit) Q :
  wp m e s (fun r s' =>
              wp f e s' (fun r2 s'' =>
                           match r2 with
                           | Ok _ => Q r s''
                           | Throw x => Q (Throw x) s''
                           end)) ->
  wp (try_finally m f) e s Q.
Proof.
  unfold wp, try_finally. destruct (m e s) as [r s']; simpl.
  destruct (f e s') as [[u|x] s'']; simpl; auto.
Qed.

Lemma wp_run A (m : M E S A) (v : Res A * S) :
  wp m e s (fun r s' => (r, s') = v) -> m e s = v.
Proof. unfold wp. destruct (m e s). exact (fun H => H). Qed.

End Rules.

Lemma includes_filter_out g l :
  includes (filter (fun k => negb (k =? g)) l) g = false.
Proof.
  induction l as [|k l IH]; simpl.
  - reflexivity.
  - destruct (k =? g) eqn:Hk; simpl.
    + exact IH.
    + rewrite Hk, IH. reflexivity.
Qed.

#[local] Arguments wp : simpl never.
#[local] Arguments includes : simpl never.

(** ** Tactics *)

Ltac run_monad :=
  unfold Player.play, Player.skip, Player.pause, Player.rest, Player.effect,
    Player.emit, Player.update, Player.update_queue, Player.read,
    Player.resolve_track, Player.sendVoiceUpdate, Player.sendToDiscord,
    try_catch, try_finally, bind, ret, throw, gets, asks, modify in *;
  simpl in *.

Ltac break_match :=
  match goal with
  | |- context [match ?x with _ => _ end] =>
      lazymatch x with
      | context [match _ with _ => _ end] => fail
      | _ => destruct x eqn:?
      end
  end; simpl in *.

Lemma rest_calls_app l l' : rest_calls (l ++ l') = rest_calls l ++ rest_calls l'.
Proof. apply filter_app. Qed.

Ltac head_of t :=
  lazymatch t with
  | ?f _ => head_of f
  | _ => t
  end.

(** One step of the computation under [wp]. *)
Ltac step :=
  lazymatch goal with
  | |- wp (bind _ _) _ _ _ => apply wp_bind
  | |- wp (ret _) _ _ _ => apply wp_ret
  | |- wp (throw _) _ _ _ => apply wp_throw
  | |- wp (gets _) _ _ _ => apply wp_gets
  | |- wp (asks _) _ _ _ => apply wp_asks
  | |- wp (modify _) _ _ _ => apply wp_modify
  | |- wp (try_catch _ _) _ _ _ => apply wp_try_catch
  | |- wp (try_finally _ _) _ _ _ => apply wp_try_finally
  | |- wp (match ?x with _ => _ end) _ _ _ =>
      first [ match goal with H : x = _ |- _ => rewrite H end
            | destruct x eqn:? ]
  | |- wp ?m _ _ _ => let h := head_of m in unfold h
  end; simpl;
  repeat match goal with
         | H : ?x = _ |- context [match ?x with _ => _ end] => rewrite H; simpl
         end;
  rewrite ?rest_calls_app; simpl; rewrite ?app_nil_r.

(** ** Properties of the player *)

Section PlayerProperties.
Import Player.

Lemma play_exclusive E s :
  exclusive (this s) -> exclusive (this (snd (play E s))).
Proof.
  unfold exclusive. intros H. run_monad.
  repeat break_match; simpl; auto.
Qed.

Lemma skip_exclusive E s :
  exclusive (this s) -> exclusive (this (snd (skip E s))).
Proof.
  unfold exclusive. intros H. run_monad.
  repeat break_match; simpl; auto.
Qed.

Lemma pause_exclusive toggle E s :
  exclusive (this s) -> exclusive (this (snd (pause toggle E s))).
Proof.
  unfold exclusive. intros H. run_monad.
  repeat break_match; simpl; auto using andb_negb_l.
Qed.

Lemma call_exclusive c E s :
  exclusive (this s) -> exclusive (this (snd (call c E s))).
Proof.
  destruct c; simpl.
  - apply play_exclusive.
  - apply skip_exclusive.
  - apply pause_exclusive.
  - intros H. exact H.
Qed.

Lemma run_exclusive E cs :
  forall s, exclusive (this s) -> exclusive (this (run E cs s)).
Proof.
  induction cs as [|c cs IH]; intros s H; simpl.
  - exact H.
  - apply IH, call_exclusive, H.
Qed.

(** C1. Whatever sequence of play(), skip() and pause() calls (with tracks
    enqueued in between, and whichever of the REST calls reject) is made on
    a freshly constructed player, after each completed call [isPlaying]
    and [isPaused] are not both true: the property holds of the state
    reached by every sequence, hence after every call of every
    sequence. *)
Theorem play_skip_pause_never_both_flags :
  forall (E : Env) (options : PlayerOptions) (registry : list string)
         (cs : list Command),
    let s := run E cs (constructor E options registry) in
    (isPlaying (this s) && isPaused (this s)) = false.
Proof.
  intros E options registry cs. simpl.
  apply (run_exclusive E cs). reflexivity.
Qed.

(** C10. pause(toggle) has no precondition on the queue or the current
    track: in every state of the player, once its REST call has resolved,
    [isPaused] is [toggle] and [isPlaying] is its negation, and the queue is
    left as it was. *)
Theorem pause_sets_flags_whatever_the_queue :
  forall (E : Env) (s : St) (toggle : bool),
    rest_rejects E (List.length (rest_calls (log s)))
                 (updatePlayer_paused (guildId (this s)) toggle) = None ->
    fst (pause toggle E s) = Ok tt
    /\ isPaused (this (snd (pause toggle E s))) = toggle
    /\ isPlaying (this (snd (pause toggle E s))) = negb toggle
    /\ queue (this (snd (pause toggle E s))) = queue (this s).
Proof.
  intros E s toggle H. run_monad. rewrite H. simpl. auto.
Qed.

(** pause(false) on a player just constructed (empty queue, no track ever
    started) marks it as playing. *)
Lemma pause_false_on_fresh_player :
  Queue.items (queue (this fresh)) = []
  /\ Queue.currentTrack (queue (this fresh)) = None
  /\ Queue.previousTrack (queue (this fresh)) = None
  /\ isPlaying (this (snd (pause false calm fresh))) = true.
Proof.
  repeat (split; [reflexivity|]).
  exact (proj1 (proj2 (proj2
    (pause_sets_flags_whatever_the_queue calm fresh false eq_refl)))).
Defined.

(** Two tracks enqueued and played on a player just constructed: the
    first becomes current, the second stays pending, and the node is asked
    to play the first. *)
Example play_takes_the_first_track :
  let s := run calm [Enqueue track_A; Enqueue track_B; Play] fresh in
  Queue.currentTrack (queue (this s)) = Some track_A
  /\ Queue.items (queue (this s)) = [track_B]
  /\ (isPlaying (this s), isPaused (this s)) = (true, false)
  /\ rest_calls (log s) = [Rest (updatePlayer_track "guild-1" (Some "QAAA"))].
Proof. repeat split. Qed.

(** skip() on an empty queue does nothing, and then pause(true) pauses. *)
Example skip_on_empty_queue_then_pause :
  skip calm fresh = (Ok tt, fresh)
  /\ (let s := run calm [Skip; Pause true] fresh in
      (isPlaying (this s), isPaused (this s)) = (false, true)).
Proof. repeat split. Qed.

(** *** setLoop *)

Lemma setLoop_step E s :
  fst (setLoop None E s) = Ok tt
  /\ loop (this (snd (setLoop None E s))) = spec_cycle (loop (this s)).
Proof.
  unfold setLoop. run_monad. destruct (loop (this s)); simpl; auto.
Qed.

Lemma setLoop_times E s n :
  loop (this (times n (setLoop None) E s)) = Nat.iter n spec_cycle (loop (this s)).
Proof.
  induction n as [|n IH]; cbn [times Nat.iter nat_rect].
  - reflexivity.
  - rewrite (proj2 (setLoop_step E _)), IH. reflexivity.
Qed.

Lemma spec_cycle_3 l : spec_cycle (spec_cycle (spec_cycle l)) = l.
Proof. destruct l; reflexivity. Qed.

Lemma iter_spec_cycle_triple q l : Nat.iter (3 * q) spec_cycle l = l.
Proof.
  induction q as [|q IH].
  - reflexivity.
  - replace (3 * S q) with (3 + 3 * q) by lia.
    rewrite Nat.iter_add, IH. simpl. apply spec_cycle_3.
Qed.

Lemma iter_spec_cycle_mod n l :
  Nat.iter n spec_cycle l = Nat.iter (n mod 3) spec_cycle l.
Proof.
  transitivity (Nat.iter (n mod 3 + 3 * (n / 3)) spec_cycle l).
  - f_equal. rewrite Nat.add_comm. apply Nat.div_mod_eq.
  - rewrite Nat.iter_add, iter_spec_cycle_triple. reflexivity.
Qed.

(** C6. setLoop() without an argument resolves and moves the mode one step
    along NONE -> TRACK -> QUEUE -> NONE from every starting mode; three
    calls in a row bring the mode back; and after any number [n] of calls the
    mode is the starting one exactly when [n] is a multiple of 3 (the period
    is 3, for every call count). *)
Theorem setLoop_cycle_has_period_3 :
  forall (E : Env) (s : St),
    (fst (setLoop None E s) = Ok tt
     /\ loop (this (snd (setLoop None E s))) = spec_cycle (loop (this s)))
    /\ loop (this (times 3 (setLoop None) E s)) = loop (this s)
    /\ (forall n, loop (this (times (n + 3) (setLoop None) E s))
                  = loop (this (times n (setLoop None) E s)))
    /\ (forall n, loop (this (times n (setLoop None) E s)) = loop (this s)
                  <-> n mod 3 = 0).
Proof.
  intros E s. split; [apply setLoop_step|]. split; [|split].
  - rewrite setLoop_times. simpl. apply spec_cycle_3.
  - intros n. rewrite !setLoop_times.
    rewrite Nat.add_comm, Nat.iter_add. simpl. apply spec_cycle_3.
  - intros n. rewrite setLoop_times, iter_spec_cycle_mod.
    assert (Hlt : n mod 3 < 3) by (apply Nat.mod_upper_bound; lia).
    destruct (n mod 3) as [|[|[|k]]]; simpl.
    + tauto.
    + split; [destruct (loop (this s)); discriminate | discriminate].
    + split; [destruct (loop (this s)); discriminate | discriminate].
    + lia.
Qed.

(** *** setAutoplay *)

Lemma setAutoplay_true E s :
  isAutoplay (this (snd (setAutoplay (Some true) E s))) = true.
Proof. reflexivity. Qed.

Lemma setAutoplay_no_argument E s :
  isAutoplay (this (snd (setAutoplay None E s))) = negb (isAutoplay (this s)).
Proof. reflexivity. Qed.

Lemma setAutoplay_false_inverts E s :
  isAutoplay (this (snd (setAutoplay (Some false) E s))) = negb (isAutoplay (this s)).
Proof. reflexivity. Qed.

(** C8. setAutoplay(false) on a player whose autoplay is off (as the
    constructor leaves it) turns autoplay on: the test [if (toggle)] sends an
    explicit [false] down the inverting branch. *)
Theorem setAutoplay_false_turns_autoplay_on :
  isAutoplay (this fresh) = false
  /\ fst (setAutoplay (Some false) calm fresh) = Ok tt
  /\ isAutoplay (this (snd (setAutoplay (Some false) calm fresh))) = true.
Proof. repeat split. Qed.

(** *** connect *)

(** C4. When connect() gets past its guards, then however the wait for the
    voice handshake ends (ready, session id missing, endpoint missing,
    aborted by the timeout, any other rejection), the player is left with
    connection state CONNECTED; the call resolves exactly on SESSION_READY
    (voice state CONNECTED) and throws in every other case (voice state still
    CONNECTING). *)
Theorem connect_always_ends_CONNECTED :
  forall (E : Env) (s : St) (h : Handshake),
    passes_guards (this s) ->
    state (this (snd (connect h E s))) = PlayerConnectionState.CONNECTED
    /\ (h = Signalled DiscordVoiceStates.SESSION_READY ->
        fst (connect h E s) = Ok tt
        /\ voiceState (this (snd (connect h E s))) = VoiceConnectionState.CONNECTED)
    /\ (h <> Signalled DiscordVoiceStates.SESSION_READY ->
        (exists e, fst (connect h E s) = Throw e)
        /\ voiceState (this (snd (connect h E s))) = VoiceConnectionState.CONNECTING).
Proof.
  intros E s h (Hst & Hch & Hv).
  unfold connect. run_monad. rewrite Hch, Hv. simpl.
  replace (PlayerConnectionState.eqb (state (this s)) PlayerConnectionState.CONNECTED)
    with false by (destruct (state (this s)); simpl; congruence).
  simpl.
  destruct h as [[ | | ]|err]; simpl.
  - repeat split; try congruence; intros H; congruence.
  - repeat split; try congruence; eauto.
  - repeat split; try congruence; eauto.
  - destruct (name err =? "AbortError"); simpl;
      repeat split; try congruence; eauto.
Qed.

(** The three outcomes named by the specification, on a player just
    constructed: ready, session id missing, timeout. *)
Lemma connect_always_ends_CONNECTED_witness :
  passes_guards (this fresh)
  /\ state (this (snd (connect (Signalled DiscordVoiceStates.SESSION_READY) calm fresh)))
     = PlayerConnectionState.CONNECTED
  /\ state (this (snd (connect (Signalled DiscordVoiceStates.SESSION_ID_MISSING) calm fresh)))
     = PlayerConnectionState.CONNECTED
  /\ state (this (snd (connect (Rejected AbortError) calm fresh)))
     = PlayerConnectionState.CONNECTED.
Proof.
  assert (G : passes_guards (this fresh)).
  { unfold passes_guards. simpl. repeat split; solve [discriminate | reflexivity]. }
  split; [exact G|]. split; [|split].
  - exact (proj1 (connect_always_ends_CONNECTED calm fresh
                    (Signalled DiscordVoiceStates.SESSION_READY) G)).
  - exact (proj1 (connect_always_ends_CONNECTED calm fresh
                    (Signalled DiscordVoiceStates.SESSION_ID_MISSING) G)).
  - exact (proj1 (connect_always_ends_CONNECTED calm fresh (Rejected AbortError) G)).
Defined.

(** *** destroy *)

(** The guard itself throws on a destroyed player and leaves it alone;
    [destroy] does not go through it. *)
Lemma checkDestroyed_on_DESTROYED E s :
  state (this s) = PlayerConnectionState.DESTROYED ->
  checkDestroyed E s = (Throw PlayerDestroyedError, s).
Proof.
  intros H.
  assert (Hb : PlayerConnectionState.eqb (state (this s)) PlayerConnectionState.DESTROYED
               = true) by (rewrite H; reflexivity).
  apply wp_run. unfold checkDestroyed. repeat step. reflexivity.
Qed.

(** C2, as stated, fails on a player just constructed (state DESTROYED, all
    REST calls resolving): destroy() resolves and has called the node. *)
Lemma destroy_on_fresh_player_counterexample :
  state (this fresh) = PlayerConnectionState.DESTROYED
  /\ ~ destroy_refused calm fresh.
Proof.
  split; [reflexivity|].
  intros [H _]. vm_compute in H. discriminate.
Qed.

Lemma destroy_wp E s :
  wp destroy E s (fun r s' =>
    List.length (rest_calls (log s)) < List.length (rest_calls (log s'))
    /\ (rest_resolves E ->
        r = Ok (includes (playerManager s) (guildId (this s)))
        /\ (exists before,
             log s'
             = log s ++ before
               ++ [Rest (destroyPlayer (guildId (this s)));
                   Emit (debug [guildId (this s);
                                "[HarmonyLink] [Player] [Connection] Player destroyed"]);
                   Emit (playerDestroy (guildId (this s)))])
        /\ includes (playerManager s') (guildId (this s)) = false)
    /\ (forall e, r = Throw e -> exists n c, rest_rejects E n c = Some e)).
Proof.
  unfold destroy. repeat step.
  all: split; [| split].
  all: try (repeat (rewrite rest_calls_app || rewrite length_app); simpl; lia).
  all: try (intros e He; first [discriminate He | injection He as <-; eauto]).
  all: intros HR; try (rewrite HR in *; discriminate).
  all: split; [reflexivity | split; [| apply includes_filter_out]].
  all: match goal with
       | |- exists _, (((((?l ++ ?a) ++ ?b) ++ ?c) ++ _) ++ _) ++ _ = ?l ++ _ =>
           exists (a ++ b ++ c)
       | |- exists _, (((?l ++ ?a) ++ _) ++ _) ++ _ = ?l ++ _ => exists a
       | |- exists _, ((?l ++ _) ++ _) ++ _ = ?l ++ _ => exists []
       end; rewrite <- !app_assoc; reflexivity.
Qed.

(** C2, amended. destroy() on a player in state DESTROYED consults no guard:
    it always makes at least one more REST call; when the REST calls resolve
    it resolves with what the registry's delete returns, the log ending with
    the destroy-player call, the debug line and the playerDestroy
    notification, and the player gone from the registry; and when it throws,
    the error is that of a rejected REST call. *)
Theorem destroy_on_DESTROYED_calls_the_node :
  forall (E : Env) (s : St),
    state (this s) = PlayerConnectionState.DESTROYED ->
    List.length (rest_calls (log s))
      < List.length (rest_calls (log (snd (destroy E s))))
    /\ (rest_resolves E ->
        fst (destroy E s) = Ok (includes (playerManager s) (guildId (this s)))
        /\ (exists before,
             log (snd (destroy E s))
             = log s ++ before
               ++ [Rest (destroyPlayer (guildId (this s)));
                   Emit (debug [guildId (this s);
                                "[HarmonyLink] [Player] [Connection] Player destroyed"]);
                   Emit (playerDestroy (guildId (this s)))])
        /\ includes (playerManager (snd (destroy E s))) (guildId (this s)) = false)
    /\ (forall e, fst (destroy E s) = Throw e ->
        exists n c, rest_rejects E n c = Some e).
Proof.
  intros E s _. exact (destroy_wp E s).
Qed.

(** A destroyed player on which every REST call resolves. *)
Lemma destroy_on_DESTROYED_calls_the_node_witness :
  state (this fresh) = PlayerConnectionState.DESTROYED
  /\ List.length (rest_calls (log fresh))
     < List.length (rest_calls (log (snd (destroy calm fresh)))).
Proof.
  split; [reflexivity|].
  exact (proj1 (destroy_on_DESTROYED_calls_the_node calm fresh eq_refl)).
Defined.

(** *** _eventHandler: the end of a track *)

(** C5, as stated, fails: with pending tracks [A; B] and A current, the
    handler leaves A current and [A; B] pending, not [B]. *)
Lemma track_loop_pending_AB_counterexample :
  let s := looping [track_A; track_B] track_A in
  let s' := snd (_eventHandler (TrackEndEvent "finished") calm s) in
  Queue.items (queue (this s)) = [track_A; track_B]
  /\ Queue.currentTrack (queue (this s)) = Some track_A
  /\ loop (this s) = PlayerLoop.TRACK
  /\ Queue.items (queue (this s')) = [track_A; track_B]
  /\ ~ (Queue.currentTrack (queue (this s')) = Some track_A
        /\ Queue.items (queue (this s')) = [track_B]).
Proof.
  simpl. repeat (split; [reflexivity|]).
  intros [_ H]. vm_compute in H. discriminate.
Qed.

(** Loop mode QUEUE with B pending and A current: A goes to the back and
    B is played. *)
Example queue_loop_moves_the_track_to_the_back :
  let s := with_loop PlayerLoop.QUEUE (looping [track_B] track_A) in
  let s' := snd (_eventHandler (TrackEndEvent "finished") calm s) in
  Queue.currentTrack (queue (this s')) = Some track_B
  /\ Queue.items (queue (this s')) = [track_A].
Proof. repeat split. Qed.

(** C5, amended. In loop mode TRACK, when the current track A (resolved)
    ends for a reason left to the loop policy, such as "finished", and the
    REST call resolves, the handler archives A as previous track, puts it
    back at the front of the pending tracks and plays it again: A is current
    again, the pending tracks are what they were before the event (so [B]
    still follows A when [B] was pending), the player is playing and not
    paused, and the node was asked to play A's encoded track. *)
Theorem track_loop_replays_current_track :
  forall (E : Env) (s : St) (A : Track.t) (reason : string),
    Queue.currentTrack (queue (this s)) = Some A ->
    truthy_opt (Track.track A) = true ->
    loop (this s) = PlayerLoop.TRACK ->
    loop_policy_reason reason ->
    rest_rejects E (List.length (rest_calls (log s)))
                 (updatePlayer_track (guildId (this s)) (Track.track A)) = None ->
    let s' := snd (_eventHandler (TrackEndEvent reason) E s) in
    fst (_eventHandler (TrackEndEvent reason) E s) = Ok tt
    /\ Queue.currentTrack (queue (this s')) = Some A
    /\ Queue.items (queue (this s')) = Queue.items (queue (this s))
    /\ Queue.previousTrack (queue (this s')) = Some A
    /\ isPlaying (this s') = true
    /\ isPaused (this s') = false
    /\ In (Emit (trackEnd (Some A))) (log s')
    /\ rest_calls (log s')
       = rest_calls (log s) ++ [Rest (updatePlayer_track (guildId (this s)) (Track.track A))].
Proof.
  intros E s A reason Hcur Hres Hloop [Hrep Hfail] Hrest.
  change (wp (_eventHandler (TrackEndEvent reason)) E s (fun r s' =>
    r = Ok tt
    /\ Queue.currentTrack (queue (this s')) = Some A
    /\ Queue.items (queue (this s')) = Queue.items (queue (this s))
    /\ Queue.previousTrack (queue (this s')) = Some A
    /\ isPlaying (this s') = true
    /\ isPaused (this s') = false
    /\ In (Emit (trackEnd (Some A))) (log s')
    /\ rest_calls (log s')
       = rest_calls (log s) ++ [Rest (updatePlayer_track (guildId (this s)) (Track.track A))])).
  assert (Hn : negb (truthy_opt (Track.track A)) = false)
    by (rewrite Hres; reflexivity).
  unfold _eventHandler. repeat step.
  repeat split.
  rewrite !in_app_iff. simpl. tauto.
Qed.

(** The queue [A, B] with A playing: B pending, A current. *)
Lemma track_loop_replays_current_track_witness :
  let s := looping [track_B] track_A in
  let s' := snd (_eventHandler (TrackEndEvent "finished") calm s) in
  Queue.currentTrack (queue (this s')) = Some track_A
  /\ Queue.items (queue (this s')) = [track_B].
Proof.
  simpl.
  pose proof (track_loop_replays_current_track calm (looping [track_B] track_A)
                (A := track_A) (reason := "finished")
                eq_refl eq_refl eq_refl (conj eq_refl eq_refl) eq_refl) as H.
  simpl in H. destruct H as (_ & Hc & Hi & _).
  split; [exact Hc | exact Hi].
Defined.

(** C9, as stated, fails for a track end with reason "replaced": the
    handler only announces the end of the track. *)
Lemma track_end_replaced_counterexample :
  let s' := snd (_eventHandler (TrackEndEvent "replaced") calm fresh) in
  Queue.items (queue (this fresh)) = []
  /\ isAutoplay (this fresh) = false
  /\ loop (this fresh) = PlayerLoop.NONE
  /\ ~ In (Emit queueEmpty) (log s').
Proof.
  simpl. repeat (split; [reflexivity|]).
  vm_compute. intros H.
  repeat (destruct H as [H|H]; [discriminate|]). exact H.
Qed.

(** C9, amended. With no pending track, autoplay off and loop mode NONE, the
    handler of a track end never throws and makes no REST call; for every
    reason other than "replaced" it emits queue-empty (after its debug line),
    and for "replaced" it emits the track-end notification instead. *)
Theorem track_end_on_empty_queue :
  forall (E : Env) (s : St) (reason : string),
    Queue.items (queue (this s)) = [] ->
    isAutoplay (this s) = false ->
    loop (this s) = PlayerLoop.NONE ->
    let r := _eventHandler (TrackEndEvent reason) E s in
    fst r = Ok tt
    /\ rest_calls (log (snd r)) = rest_calls (log s)
    /\ ((reason =? "replaced") = false ->
        log (snd r)
        = log s
          ++ [Emit (debug ["[HarmonyLink] [Player] [Connection] Event received for player "
                           ^^ guildId (this s)]);
              Emit queueEmpty])
    /\ ((reason =? "replaced") = true ->
        log (snd r)
        = log s
          ++ [Emit (debug ["[HarmonyLink] [Player] [Connection] Event received for player "
                           ^^ guildId (this s)]);
              Emit (debug ["[HarmonyLink] [Player] [Connection] Track replaced for player "
                           ^^ guildId (this s)]);
              Emit (trackEnd_packet (TrackEndEvent reason))]).
Proof.
  intros E s reason Hq Ha Hl.
  change (wp (_eventHandler (TrackEndEvent reason)) E s (fun r s' =>
    r = Ok tt
    /\ rest_calls (log s') = rest_calls (log s)
    /\ ((reason =? "replaced") = false ->
        log s'
        = log s
          ++ [Emit (debug ["[HarmonyLink] [Player] [Connection] Event received for player "
                           ^^ guildId (this s)]);
              Emit queueEmpty])
    /\ ((reason =? "replaced") = true ->
        log s'
        = log s
          ++ [Emit (debug ["[HarmonyLink] [Player] [Connection] Event received for player "
                           ^^ guildId (this s)]);
              Emit (debug ["[HarmonyLink] [Player] [Connection] Track replaced for player "
                           ^^ guildId (this s)]);
              Emit (trackEnd_packet (TrackEndEvent reason))]))).
  unfold _eventHandler.
  destruct (Queue.currentTrack (queue (this s))) as [cur|] eqn:Hcur;
    repeat (step; unfold Queue.length; simpl; rewrite ?Hq; simpl).
  all: repeat split; try discriminate; intros _; rewrite <- !app_assoc; reflexivity.
Qed.

(** A track that finished on a player just constructed. *)
Lemma track_end_on_empty_queue_witness :
  In (Emit queueEmpty) (log (snd (_eventHandler (TrackEndEvent "finished") calm fresh)))
  /\ fst (_eventHandler (TrackEndEvent "finished") calm fresh) = Ok tt.
Proof.
  pose proof (track_end_on_empty_queue calm fresh "finished" eq_refl eq_refl eq_refl)
    as (Hok & _ & Hlog & _).
  split; [|exact Hok].
  rewrite (Hlog eq_refl). apply in_or_app. right. simpl. auto.
Defined.

End PlayerProperties.

(** ** Properties of the driver *)

Section DriverProperties.
Import LavalinkV4.

(** *** wsClose *)

Lemma wsClose_true_emits E s m w :
  manager (this s) = Some m ->
  wsClient (this s) = Some w ->
  wsClose true E s
  = (Ok tt,
     mkSt (set_wsClient None (this s))
          (log s ++ [ws_close 1006 "Self Closed";
                     emit_nodeDisconnect (node (this s));
                     ws_removeAllListeners])).
Proof.
  intros Hm Hw. unfold wsClose, bind, gets, effect, update, modify, ret.
  simpl. rewrite Hm, Hw. simpl. rewrite <- !app_assoc. reflexivity.
Qed.

Lemma wsClose_false_is_silent E s w :
  wsClient (this s) = Some w ->
  wsClose false E s
  = (Ok tt, mkSt (set_wsClient None (this s)) (log s ++ [ws_removeAllListeners])).
Proof.
  intros Hw. unfold wsClose, bind, gets, effect, update, modify, ret.
  simpl. rewrite Hw. reflexivity.
Qed.

(** C7. On a connected driver, wsClose(true) closes the socket and emits
    nodeDisconnect, whereas wsClose(false) emits nothing and does not call
    close on the socket (it only removes the listeners and drops the
    handle): the notification is sent exactly when [withoutEmit] is set. *)
Theorem wsClose_emits_when_withoutEmit_is_true :
  let closed_true := snd (wsClose true sample_remote connected) in
  let closed_false := snd (wsClose false sample_remote connected) in
  log closed_true
  = log connected ++ [ws_close 1006 "Self Closed";
                      emit_nodeDisconnect (Some sample_node);
                      ws_removeAllListeners]
  /\ log closed_false = log connected ++ [ws_removeAllListeners]
  /\ filter is_nodeDisconnect (log closed_true) = [emit_nodeDisconnect (Some sample_node)]
  /\ filter is_nodeDisconnect (log closed_false) = []
  /\ filter is_ws_close (log closed_false) = []
  /\ wsClient (this closed_true) = None
  /\ wsClient (this closed_false) = None.
Proof. repeat split. Qed.

(** *** The local decoder over a batch *)


(** [data] holds the decoder's results for the entries it resolves. *)
Lemma decode_batch_data dec l td :
  In td (fst (decode_batch dec l)) <-> exists track, In track l /\ dec track = Some td.
Proof.
  induction l as [|track l IH]; simpl.
  - split; [tauto | intros (x & [] & _)].
  - destruct (decode_batch dec l) as [data failed]. simpl in IH.
    destruct (dec track) as [td'|] eqn:Hd; simpl; rewrite ?IH.
    + split.
      * intros [<-|(x & Hx & Hdx)]; eauto.
      * intros (x & [<-|Hx] & Hdx); [left; congruence | right; eauto].
    + split.
      * intros (x & Hx & Hdx); eauto.
      * intros (x & [<-|Hx] & Hdx); [congruence | eauto].
Qed.

(** *** request on the decode paths *)

Lemma isRegistered_node d :
  isRegistered d = true -> exists m n, manager d = Some m /\ node d = Some n.
Proof.
  unfold isRegistered. destruct (manager d), (node d); try discriminate; eauto.
Qed.



(** C3. A batch of three encoded tracks whose second entry is malformed:
    the decoder resolves the first and the third locally, exactly one remote
    decode call is made and it carries the malformed entry alone, but the
    request resolves with the node's answer to that call (here an empty
    array) and the two tracks decoded locally are not in the result. *)
Theorem decode_batch_with_a_malformed_entry_returns_the_remote_answer :
  let r := request (decode_request sample_batch) sample_remote registered in
  decode_batch sample_decoder sample_batch
  = ([mkTrackData "QAAA" "title of QAAA" "id of QAAA";
      mkTrackData "QBBB" "title of QBBB" "id of QBBB"],
     ["not-a-track"])
  /\ filter is_fetch (log (snd r))
     = [fetch (remote_decode_call (this registered) [] ["not-a-track"])]
  /\ fst r = Ok (Some (json (JTracks []))).
Proof. repeat split. Qed.
End DriverProperties.

(** ** Further properties of the player *)

Section PlayerBehaviour.
Import Player.

Lemma wp_weaken E S A (m : M E S A) e s (Q Q' : Res A -> S -> Prop) :
  wp m e s Q -> (forall r s', Q r s' -> Q' r s') -> wp m e s Q'.
Proof. unfold wp. auto. Qed.

(** *** play *)

(** X1. play() takes the head of the pending tracks before it talks to the
    node: when the head is resolved and the REST call rejects, play() throws
    that error with the head already removed from the pending tracks and
    installed as current track, while the playback flags and the position
    are as before the call. *)
Theorem play_rejected_has_consumed_the_head :
  forall (E : Env) (s : St) (tr : Track.t) (pending : list Track.t) (err : JsError),
    Queue.items (queue (this s)) = tr :: pending ->
    resolved tr ->
    rest_rejects E (List.length (rest_calls (log s)))
                 (updatePlayer_track (guildId (this s)) (Track.track tr)) = Some err ->
    fst (play E s) = Throw err
    /\ Queue.items (queue (this (snd (play E s)))) = pending
    /\ Queue.currentTrack (queue (this (snd (play E s)))) = Some tr
    /\ flags (this (snd (play E s))) = flags (this s).
Proof.
  intros E s tr pending err Hq Hres Hrej.
  assert (Hn : negb (truthy_opt (Track.track tr)) = false)
    by (unfold resolved in Hres; rewrite Hres; reflexivity).
  change (wp play E s (fun r s' =>
    r = Throw err
    /\ Queue.items (queue (this s')) = pending
    /\ Queue.currentTrack (queue (this s')) = Some tr
    /\ flags (this s') = flags (this s))).
  unfold play.
  repeat (step; unfold Queue.length, Queue.shift; simpl; rewrite ?Hq; simpl).
  repeat split.
Qed.

Lemma play_rejected_has_consumed_the_head_witness :
  let s' := snd (play offline (queued [track_A; track_B])) in
  Queue.items (queue (this s')) = [track_B]
  /\ Queue.currentTrack (queue (this s')) = Some track_A
  /\ isPlaying (this s') = false.
Proof.
  pose proof (play_rejected_has_consumed_the_head offline (queued [track_A; track_B])
                (tr := track_A) (pending := [track_B]) (err := network_error)
                eq_refl eq_refl eq_refl) as (_ & Hi & Hc & Hf).
  simpl. split; [exact Hi | split; [exact Hc |]].
  exact (f_equal (fun x => fst (fst x)) Hf).
Defined.

(** X2. The head of the pending tracks is resolved lazily before it is
    played.  When it has no encoded track, play() asks the track to resolve
    itself: if that rejects, play() throws the same error without any REST
    call (the head is nevertheless gone from the pending tracks and is the
    current track); if it resolves and the REST call resolves, the node is
    asked to play the encoded track of the resolved track, which becomes
    the current one. *)
Theorem play_resolves_the_head_first :
  forall (E : Env) (s : St) (tr : Track.t) (pending : list Track.t),
    Queue.items (queue (this s)) = tr :: pending ->
    truthy_opt (Track.track tr) = false ->
    (forall err,
        track_resolve E tr = Throw err ->
        fst (play E s) = Throw err
        /\ rest_calls (log (snd (play E s))) = rest_calls (log s)
        /\ Queue.items (queue (this (snd (play E s)))) = pending
        /\ Queue.currentTrack (queue (this (snd (play E s)))) = Some tr
        /\ flags (this (snd (play E s))) = flags (this s))
    /\ (forall tr',
        track_resolve E tr = Ok tr' ->
        rest_rejects E (List.length (rest_calls (log s)))
                     (updatePlayer_track (guildId (this s)) (Track.track tr')) = None ->
        fst (play E s) = Ok tt
        /\ rest_calls (log (snd (play E s)))
           = rest_calls (log s)
             ++ [Rest (updatePlayer_track (guildId (this s)) (Track.track tr'))]
        /\ Queue.items (queue (this (snd (play E s)))) = pending
        /\ Queue.currentTrack (queue (this (snd (play E s)))) = Some tr'
        /\ flags (this (snd (play E s))) = (true, false, 0%Z)).
Proof.
  intros E s tr pending Hq Hun.
  assert (Hn : negb (truthy_opt (Track.track tr)) = true) by (rewrite Hun; reflexivity).
  split.
  - intros err Hr.
    change (wp play E s (fun r s' =>
      r = Throw err
      /\ rest_calls (log s') = rest_calls (log s)
      /\ Queue.items (queue (this s')) = pending
      /\ Queue.currentTrack (queue (this s')) = Some tr
      /\ flags (this s') = flags (this s))).
    unfold play.
    repeat (step; unfold Queue.length, Queue.shift; simpl; rewrite ?Hq; simpl).
    repeat split.
  - intros tr' Hr Hrest.
    change (wp play E s (fun r s' =>
      r = Ok tt
      /\ rest_calls (log s')
         = rest_calls (log s)
           ++ [Rest (updatePlayer_track (guildId (this s)) (Track.track tr'))]
      /\ Queue.items (queue (this s')) = pending
      /\ Queue.currentTrack (queue (this s')) = Some tr'
      /\ flags (this s') = (true, false, 0%Z))).
    unfold play.
    repeat (step; unfold Queue.length, Queue.shift; simpl; rewrite ?Hq; simpl).
    repeat split.
Qed.

Lemma play_resolves_the_head_first_witness :
  fst (play unresolvable (queued [track_U; track_B])) = Throw (Error "No track found")
  /\ rest_calls (log (snd (play unresolvable (queued [track_U; track_B])))) = [].
Proof.
  pose proof (proj1 (play_resolves_the_head_first unresolvable (queued [track_U; track_B])
                       (tr := track_U) (pending := [track_B]) eq_refl eq_refl)
                _ eq_refl) as (Hf & Hr & _).
  split; [exact Hf | exact Hr].
Defined.

(** X3. On an empty queue play() and skip() do nothing at all: they
    resolve without any REST call, event or change of the player. *)
Theorem play_and_skip_on_an_empty_queue_do_nothing :
  forall (E : Env) (s : St),
    Queue.items (queue (this s)) = [] ->
    play E s = (Ok tt, s) /\ skip E s = (Ok tt, s).
Proof.
  intros E s Hq. split; apply wp_run.
  - unfold play.
    repeat (step; unfold Queue.length; simpl; rewrite ?Hq; simpl). reflexivity.
  - unfold skip.
    repeat (step; unfold Queue.length; simpl; rewrite ?Hq; simpl). reflexivity.
Qed.

Lemma play_and_skip_on_an_empty_queue_do_nothing_witness :
  play calm fresh = (Ok tt, fresh) /\ skip calm fresh = (Ok tt, fresh).
Proof. exact (play_and_skip_on_an_empty_queue_do_nothing calm fresh eq_refl). Defined.

(** *** skip and pause *)

(** X4. skip() never advances the queue, and it marks the player as paused
    before it talks to the node: with at least one pending track it leaves
    the pending tracks, the current and the previous track as they are,
    sets the flags to not playing / paused and the position to 0, makes one
    REST call that clears the node's track, and resolves or throws as that
    call does; the flags are set even when the call rejects. *)
Theorem skip_marks_paused_whatever_the_node_answers :
  forall (E : Env) (s : St) (tr : Track.t) (pending : list Track.t),
    Queue.items (queue (this s)) = tr :: pending ->
    fst (skip E s)
    = match rest_rejects E (List.length (rest_calls (log s)))
                         (updatePlayer_track (guildId (this s)) None) with
      | Some err => Throw err
      | None => Ok tt
      end
    /\ queue (this (snd (skip E s))) = queue (this s)
    /\ flags (this (snd (skip E s))) = (false, true, 0%Z)
    /\ rest_calls (log (snd (skip E s)))
       = rest_calls (log s) ++ [Rest (updatePlayer_track (guildId (this s)) None)].
Proof.
  intros E s tr pending Hq.
  change (wp skip E s (fun r s' =>
    r = match rest_rejects E (List.length (rest_calls (log s)))
                           (updatePlayer_track (guildId (this s)) None) with
        | Some err => Throw err
        | None => Ok tt
        end
    /\ queue (this s') = queue (this s)
    /\ flags (this s') = (false, true, 0%Z)
    /\ rest_calls (log s')
       = rest_calls (log s) ++ [Rest (updatePlayer_track (guildId (this s)) None)])).
  unfold skip.
  repeat (step; unfold Queue.length; simpl; rewrite ?Hq; simpl).
  all: repeat split.
Qed.

Lemma skip_marks_paused_whatever_the_node_answers_witness :
  fst (skip offline (queued [track_A])) = Throw network_error
  /\ flags (this (snd (skip offline (queued [track_A])))) = (false, true, 0%Z).
Proof.
  pose proof (skip_marks_paused_whatever_the_node_answers offline (queued [track_A])
                (tr := track_A) (pending := []) eq_refl) as (Hf & _ & Hfl & _).
  split; [exact Hf | exact Hfl].
Defined.

(** X5. pause() assigns the flags only after the node has accepted the
    change: when its REST call rejects, pause() throws that error and every
    field of the player is as before. *)
Theorem pause_rejected_changes_nothing :
  forall (E : Env) (s : St) (toggle : bool) (err : JsError),
    rest_rejects E (List.length (rest_calls (log s)))
                 (updatePlayer_paused (guildId (this s)) toggle) = Some err ->
    fst (pause toggle E s) = Throw err
    /\ this (snd (pause toggle E s)) = this s
    /\ log (snd (pause toggle E s))
       = log s ++ [Rest (updatePlayer_paused (guildId (this s)) toggle)].
Proof.
  intros E s toggle err Hrej.
  change (wp (pause toggle) E s (fun r s' =>
    r = Throw err /\ this s' = this s
    /\ log s' = log s ++ [Rest (updatePlayer_paused (guildId (this s)) toggle)])).
  unfold pause. repeat step. repeat split.
Qed.

Lemma pause_rejected_changes_nothing_witness :
  fst (pause true offline fresh) = Throw network_error
  /\ this (snd (pause true offline fresh)) = this fresh.
Proof.
  pose proof (pause_rejected_changes_nothing offline fresh true (err := network_error)
                eq_refl) as (Hf & Ht & _).
  split; [exact Hf | exact Ht].
Defined.

(** *** connect *)

(** X6. connect() does nothing at all (no voice packet, no wait, no change
    of state) when the player is already CONNECTED, has no voice channel, or
    has a voice handshake under way or done. *)
Theorem connect_is_a_no_op_behind_its_guards :
  forall (E : Env) (s : St) (h : Handshake),
    state (this s) = PlayerConnectionState.CONNECTED
    \/ voiceChannelId (this s) = EmptyString
    \/ voiceState (this s) <> VoiceConnectionState.DISCONNECTED ->
    connect h E s = (Ok tt, s).
Proof.
  intros E s h H.
  assert (Hg :
    (PlayerConnectionState.eqb (state (this s)) PlayerConnectionState.CONNECTED
     || negb (truthy (voiceChannelId (this s)))) = true
    \/ ((PlayerConnectionState.eqb (state (this s)) PlayerConnectionState.CONNECTED
         || negb (truthy (voiceChannelId (this s)))) = false
        /\ (VoiceConnectionState.eqb (voiceState (this s)) VoiceConnectionState.CONNECTING
            || VoiceConnectionState.eqb (voiceState (this s)) VoiceConnectionState.CONNECTED)
           = true)).
  { destruct H as [H | [H | H]].
    - left. rewrite H. reflexivity.
    - left. rewrite H. apply orb_true_r.
    - destruct (PlayerConnectionState.eqb (state (this s)) PlayerConnectionState.CONNECTED
                || negb (truthy (voiceChannelId (this s)))); [left; reflexivity|].
      right. split; [reflexivity|].
      destruct (voiceState (this s)); simpl; congruence. }
  apply wp_run. unfold connect.
  destruct Hg as [H1 | [H1 H2]]; repeat step; reflexivity.
Qed.

Lemma connect_is_a_no_op_behind_its_guards_witness :
  let s := snd (connect (Signalled DiscordVoiceStates.SESSION_READY) calm fresh) in
  connect (Rejected AbortError) calm s = (Ok tt, s).
Proof.
  exact (connect_is_a_no_op_behind_its_guards calm
           (snd (connect (Signalled DiscordVoiceStates.SESSION_READY) calm fresh))
           (Rejected AbortError) (or_introl eq_refl)).
Defined.

Lemma connect_past_guards_sets_CONNECTED E s h :
  passes_guards (this s) ->
  state (this (snd (connect h E s))) = PlayerConnectionState.CONNECTED.
Proof.
  intros (Hst & Hch & Hv).
  assert (H1 :
    (PlayerConnectionState.eqb (state (this s)) PlayerConnectionState.CONNECTED
     || negb (truthy (voiceChannelId (this s)))) = false).
  { rewrite Hch. destruct (state (this s)); simpl; congruence. }
  assert (H2 :
    (VoiceConnectionState.eqb (voiceState (this s)) VoiceConnectionState.CONNECTING
     || VoiceConnectionState.eqb (voiceState (this s)) VoiceConnectionState.CONNECTED)
    = false) by (rewrite Hv; reflexivity).
  change (wp (connect h) E s (fun _ s' =>
            state (this s') = PlayerConnectionState.CONNECTED)).
  unfold connect. repeat step; reflexivity.
Qed.

(** X7. A failed handshake cannot be retried with connect(): once a call
    of connect() has got past its guards, however its handshake ended, the
    next call of connect() returns at once without sending a voice packet
    or waiting for a handshake. *)
Theorem connect_after_connect_does_nothing :
  forall (E : Env) (s : St) (h h' : Handshake),
    passes_guards (this s) ->
    connect h' E (snd (connect h E s)) = (Ok tt, snd (connect h E s)).
Proof.
  intros E s h h' G.
  apply connect_is_a_no_op_behind_its_guards. left.
  apply connect_past_guards_sets_CONNECTED, G.
Qed.

Lemma connect_after_connect_does_nothing_witness :
  let s := snd (connect (Signalled DiscordVoiceStates.SESSION_ID_MISSING) calm fresh) in
  voiceState (this s) = VoiceConnectionState.CONNECTING
  /\ connect (Signalled DiscordVoiceStates.SESSION_READY) calm s = (Ok tt, s).
Proof.
  split; [reflexivity|].
  refine (connect_after_connect_does_nothing calm fresh
            (Signalled DiscordVoiceStates.SESSION_ID_MISSING)
            (Signalled DiscordVoiceStates.SESSION_READY) _).
  unfold passes_guards. simpl. repeat split; solve [discriminate | reflexivity].
Defined.

(** *** What every entry point keeps *)

Lemma wp_run_customAutoplay (f : St -> Res bool * St) E s (Q : Res bool -> St -> Prop) :
  (forall r s',
      f (mkSt (this s) (log s ++ [CustomAutoplay]) (playerManager s)) = (r, s') ->
      Q r s') ->
  wp (run_customAutoplay f) E s Q.
Proof.
  intros H. unfold wp, run_customAutoplay.
  destruct (f _) as [r s'] eqn:Hf. simpl. apply H. reflexivity.
Qed.

Lemma wp_opaque E S A (m : M E S A) e s (Q : Res A -> S -> Prop) :
  (forall r s', m e s = (r, s') -> Q r s') -> wp m e s Q.
Proof.
  intros H. unfold wp. destruct (m e s) as [r s'] eqn:Hm. simpl. apply H. reflexivity.
Qed.

(** A call of a method whose effect on [P] is known by [lem]: the method is
    not entered, and [P] is recorded of the state it leaves. *)
Ltac known_call P lem side :=
  lazymatch goal with
  | |- wp ?m ?E ?s _ =>
      let r := fresh "r" in
      let s' := fresh "s'" in
      let Hr := fresh "Hr" in
      let K := fresh "K" in
      apply wp_opaque; intros r s' Hr;
      assert (K : P s')
        by (replace s' with (snd (m E s)) by (rewrite Hr; reflexivity);
            apply lem; side);
      clear Hr; destruct r; simpl
  end.

(** The user's autoplay hook, of which [Hhook] says that it keeps [P]. *)
Ltac hook_call P Hhook side :=
  lazymatch goal with
  | |- wp (run_customAutoplay ?f) ?E ?s _ =>
      let r := fresh "r" in
      let s' := fresh "s'" in
      let Hr := fresh "Hr" in
      let K := fresh "K" in
      apply wp_run_customAutoplay; intros r s' Hr;
      assert (K : P s')
        by (replace s' with (snd (f (mkSt (this s) (log s ++ [CustomAutoplay])
                                          (playerManager s))))
              by (rewrite Hr; reflexivity);
            apply Hhook; side);
      clear Hr; destruct r as [[|]|]; simpl
  end.










Ltac steady_side :=
  try assumption; unfold steady, exclusive in *; simpl in *;
  solve [assumption | reflexivity].

Ltac steady_step Hhook :=
  first
    [ lazymatch goal with
      | |- wp skip _ _ _ => known_call steady skip_exclusive steady_side
      | |- wp play _ _ _ => known_call steady play_exclusive steady_side
      | |- wp (pause ?t) _ _ _ => known_call steady (pause_exclusive t) steady_side
      | |- wp (run_customAutoplay _) _ _ _ => hook_call steady Hhook steady_side
      end
    | step ].

Lemma autoplay_steady previousTrack E s :
  hook_keeps steady E -> steady s -> steady (snd (autoplay previousTrack E s)).
Proof.
  intros Hhook H. change (wp (autoplay previousTrack) E s (fun _ s' => steady s')).
  unfold hook_keeps in Hhook.
  destruct (customAutoplay E) as [f|] eqn:Hc;
    unfold autoplay, enqueue_and_play; repeat steady_step Hhook; steady_side.
Qed.

(** X9. The playback flags exclude each other after every entry point, not
    only after play, skip and pause: connect, setLoop, setAutoplay, destroy,
    resolve, autoplay, the handler of every node event and the
    player-update listener all leave [isPlaying] and [isPaused] not both
    true when they were not both true before, whatever the node answers,
    provided the user's autoplay hook, if any, does so too. *)
Theorem every_entry_point_keeps_the_flags_exclusive :
  forall (E : Env) (c : Call) (s : St),
    hook_keeps steady E -> steady s -> steady (snd (perform c E s)).
Proof.
  intros E c s Hhook Hs.
  change (wp (perform c) E s (fun _ s' => steady s')).
  destruct c; unfold perform;
    unfold _eventHandler, on_TrackEnd, destroy, disconnect;
    repeat first
      [ lazymatch goal with
        | |- wp (autoplay ?p) ?E ?s _ =>
            known_call steady (autoplay_steady p) ltac:(try exact Hhook; steady_side)
        end
      | steady_step Hhook ];
    steady_side.
Qed.

Lemma every_entry_point_keeps_the_flags_exclusive_witness :
  steady (snd (perform (call_event (WebSocketClosedEvent 4006)) offline
                       (queued [track_A]))).
Proof.
  apply (every_entry_point_keeps_the_flags_exclusive offline
           (call_event (WebSocketClosedEvent 4006))).
  - exact I.
  - reflexivity.
Defined.

(** *** destroy *)

Lemma destroy_outcome E s :
  wp destroy E s (fun r s' =>
    guildId (this s') = guildId (this s)
    /\ (voiceChannelId (this s) = EmptyString -> this s' = this s)
    /\ (rest_resolves E ->
        r = Ok (includes (playerManager s) (guildId (this s)))
        /\ includes (playerManager s') (guildId (this s)) = false
        /\ (truthy (voiceChannelId (this s)) = true ->
            state (this s') = PlayerConnectionState.DISCONNECTED
            /\ voiceState (this s') = VoiceConnectionState.DISCONNECTED
            /\ isConnected (this s') = false
            /\ In (sendPacket (shardId (this s))
                              (mkVoice (guildId (this s)) None false false))
                  (log s')))).
Proof.
  unfold destroy.
  destruct (truthy (voiceChannelId (this s))) eqn:Hv.
  - assert (Hne : voiceChannelId (this s) <> EmptyString)
      by (intros H; rewrite H in Hv; discriminate).
    assert (Hn : negb (truthy (voiceChannelId (this s))) = false)
      by (rewrite Hv; reflexivity).
    repeat step.
    all: split; [reflexivity | split; [intros H; congruence |]].
    all: intros HR; try (rewrite HR in *; discriminate).
    all: split; [reflexivity | split; [apply includes_filter_out |]].
    all: intros _; repeat split; rewrite !in_app_iff; simpl; tauto.
  - assert (Hn : negb (truthy (voiceChannelId (this s))) = true)
      by (rewrite Hv; reflexivity).
    repeat step.
    all: split; [reflexivity | split; [intros _; reflexivity |]].
    all: intros HR; try (rewrite HR in *; discriminate).
    all: split; [reflexivity | split; [apply includes_filter_out | discriminate]].
Qed.

(** X10. destroy() leaves the voice channel before it destroys the remote
    player: for a player with a voice channel, when the REST calls resolve,
    the player ends DISCONNECTED (connection and voice state), not
    connected, and the voice transport has been sent the leave packet
    (channel_id null, not deafened, not muted) for its guild; for a player
    without a voice channel destroy() changes no field of the player. *)
Theorem destroy_leaves_the_voice_channel :
  forall (E : Env) (s : St),
    rest_resolves E ->
    (truthy (voiceChannelId (this s)) = true ->
     state (this (snd (destroy E s))) = PlayerConnectionState.DISCONNECTED
     /\ voiceState (this (snd (destroy E s))) = VoiceConnectionState.DISCONNECTED
     /\ isConnected (this (snd (destroy E s))) = false
     /\ In (sendPacket (shardId (this s)) (mkVoice (guildId (this s)) None false false))
           (log (snd (destroy E s))))
    /\ (voiceChannelId (this s) = EmptyString -> this (snd (destroy E s)) = this s).
Proof.
  intros E s HR.
  pose proof (destroy_outcome E s) as H. unfold wp in H.
  destruct H as (_ & Hnone & Hres).
  split; [|exact Hnone].
  intros Hv. exact (proj2 (proj2 (Hres HR)) Hv).
Qed.

Lemma destroy_leaves_the_voice_channel_witness :
  state (this (snd (destroy calm fresh))) = PlayerConnectionState.DISCONNECTED
  /\ In (sendPacket "0" (mkVoice "guild-1" None false false)) (log (snd (destroy calm fresh))).
Proof.
  pose proof (proj1 (destroy_leaves_the_voice_channel (E := calm) fresh
                       (fun _ _ => eq_refl)) eq_refl) as (Hs & _ & _ & Hp).
  split; [exact Hs | exact Hp].
Defined.

(** X11. destroy() is safe to repeat: when the REST calls resolve, a second
    destroy() resolves too, with [false], because the first one has removed
    the player from the registry, and it calls the node again. *)
Theorem destroy_twice_resolves_false :
  forall (E : Env) (s : St),
    rest_resolves E ->
    fst (destroy E (snd (destroy E s))) = Ok false
    /\ List.length (rest_calls (log (snd (destroy E s))))
       < List.length (rest_calls (log (snd (destroy E (snd (destroy E s)))))).
Proof.
  intros E s HR.
  pose proof (destroy_outcome E s) as H1. unfold wp in H1.
  destruct H1 as (Hg & _ & Hres). destruct (Hres HR) as (_ & Hgone & _).
  pose proof (destroy_outcome E (snd (destroy E s))) as H2. unfold wp in H2.
  destruct H2 as (_ & _ & Hres2). destruct (Hres2 HR) as (Hr2 & _).
  split.
  - rewrite Hr2, Hg, Hgone. reflexivity.
  - pose proof (destroy_wp E (snd (destroy E s))) as H3. unfold wp in H3.
    exact (proj1 H3).
Qed.

Lemma destroy_twice_resolves_false_witness :
  fst (destroy calm fresh) = Ok true
  /\ fst (destroy calm (snd (destroy calm fresh))) = Ok false.
Proof.
  split; [reflexivity|].
  exact (proj1 (destroy_twice_resolves_false (E := calm) fresh (fun _ _ => eq_refl))).
Defined.

(** *** The end of a track *)

(** X12. A track that failed to load, or was cleaned up, is never put back
    in the queue and never triggers autoplay, whatever the loop mode and
    the autoplay flag: with a resolved track pending and the REST call
    resolving, the handler announces the end, plays the head of the pending
    tracks and leaves the rest pending; with nothing pending it emits
    queue-empty and makes no REST call. *)
Theorem failed_track_bypasses_loop_and_autoplay :
  forall (E : Env) (s : St) (reason : string),
    reason = "loadFailed" \/ reason = "cleanup" ->
    (forall hd pending,
        Queue.items (queue (this s)) = hd :: pending ->
        resolved hd ->
        rest_rejects E (List.length (rest_calls (log s)))
                     (updatePlayer_track (guildId (this s)) (Track.track hd)) = None ->
        let s' := snd (_eventHandler (TrackEndEvent reason) E s) in
        fst (_eventHandler (TrackEndEvent reason) E s) = Ok tt
        /\ Queue.currentTrack (queue (this s')) = Some hd
        /\ Queue.items (queue (this s')) = pending
        /\ Queue.previousTrack (queue (this s')) = archived (queue (this s))
        /\ (isPlaying (this s'), isPaused (this s')) = (true, false)
        /\ In (Emit (trackEnd (archived (queue (this s))))) (log s'))
    /\ (Queue.items (queue (this s)) = [] ->
        let s' := snd (_eventHandler (TrackEndEvent reason) E s) in
        fst (_eventHandler (TrackEndEvent reason) E s) = Ok tt
        /\ rest_calls (log s') = rest_calls (log s)
        /\ In (Emit queueEmpty) (log s')
        /\ Queue.currentTrack (queue (this s')) = None).
Proof.
  intros E s reason Hreason.
  assert (Hrep : (reason =? "replaced") = false)
    by (destruct Hreason as [-> | ->]; reflexivity).
  assert (Hfail : includes ["loadFailed"; "cleanup"] reason = true)
    by (destruct Hreason as [-> | ->]; reflexivity).
  split.
  - intros hd pending Hq Hres Hrest.
    assert (Hn : negb (truthy_opt (Track.track hd)) = false)
      by (unfold resolved in Hres; rewrite Hres; reflexivity).
    change (wp (_eventHandler (TrackEndEvent reason)) E s (fun r s' =>
      r = Ok tt
      /\ Queue.currentTrack (queue (this s')) = Some hd
      /\ Queue.items (queue (this s')) = pending
      /\ Queue.previousTrack (queue (this s')) = archived (queue (this s))
      /\ (isPlaying (this s'), isPaused (this s')) = (true, false)
      /\ In (Emit (trackEnd (archived (queue (this s))))) (log s'))).
    unfold _eventHandler, archived.
    destruct (Queue.currentTrack (queue (this s))) as [cur|] eqn:Hcur;
      repeat (step; unfold Queue.length, Queue.shift; simpl; rewrite ?Hq; simpl).
    all: repeat split; rewrite !in_app_iff; simpl; tauto.
  - intros Hq.
    change (wp (_eventHandler (TrackEndEvent reason)) E s (fun r s' =>
      r = Ok tt
      /\ rest_calls (log s') = rest_calls (log s)
      /\ In (Emit queueEmpty) (log s')
      /\ Queue.currentTrack (queue (this s')) = None)).
    unfold _eventHandler.
    destruct (Queue.currentTrack (queue (this s))) as [cur|] eqn:Hcur;
      repeat (step; unfold Queue.length, Queue.shift; simpl; rewrite ?Hq; simpl).
    all: repeat split; rewrite !in_app_iff; simpl; tauto.
Qed.

Lemma failed_track_bypasses_loop_and_autoplay_witness :
  let s := looping [track_B] track_A in
  let s' := snd (_eventHandler (TrackEndEvent "loadFailed") calm s) in
  loop (this s) = PlayerLoop.TRACK
  /\ Queue.currentTrack (queue (this s')) = Some track_B
  /\ Queue.items (queue (this s')) = [].
Proof.
  simpl. split; [reflexivity|].
  pose proof (proj1 (failed_track_bypasses_loop_and_autoplay calm (looping [track_B] track_A)
                       (reason := "loadFailed") (or_introl eq_refl))
                track_B [] eq_refl eq_refl eq_refl) as (_ & Hc & Hi & _).
  split; [exact Hc | exact Hi].
Defined.

(** X13. A track end with reason "replaced" only archives the track: the
    current track becomes the previous one (the previous one is kept when
    nothing was current), no track is current any more, the pending tracks
    are untouched, the player is marked paused, and no REST call is made,
    in every loop mode. *)
Theorem replaced_track_is_only_archived :
  forall (E : Env) (s : St),
    let s' := snd (_eventHandler (TrackEndEvent "replaced") E s) in
    fst (_eventHandler (TrackEndEvent "replaced") E s) = Ok tt
    /\ Queue.currentTrack (queue (this s')) = None
    /\ Queue.previousTrack (queue (this s')) = archived (queue (this s))
    /\ Queue.items (queue (this s')) = Queue.items (queue (this s))
    /\ (isPlaying (this s'), isPaused (this s')) = (false, true)
    /\ rest_calls (log s') = rest_calls (log s).
Proof.
  intros E s.
  change (wp (_eventHandler (TrackEndEvent "replaced")) E s (fun r s' =>
    r = Ok tt
    /\ Queue.currentTrack (queue (this s')) = None
    /\ Queue.previousTrack (queue (this s')) = archived (queue (this s))
    /\ Queue.items (queue (this s')) = Queue.items (queue (this s))
    /\ (isPlaying (this s'), isPaused (this s')) = (false, true)
    /\ rest_calls (log s') = rest_calls (log s))).
  unfold _eventHandler, archived.
  destruct (Queue.currentTrack (queue (this s))) as [cur|] eqn:Hcur;
    repeat step; repeat split.
Qed.

(** X14. The loop modes TRACK and QUEUE repeat what has been played, not
    what is pending: when a track ends for a reason left to the loop policy
    while no track is current and none was archived before, the handler in
    either mode emits queue-empty and starts nothing, although tracks may
    be pending; they stay pending and no REST call is made. *)
Theorem loop_without_a_played_track_reports_queue_empty :
  forall (E : Env) (s : St) (reason : string),
    loop (this s) <> PlayerLoop.NONE ->
    Queue.currentTrack (queue (this s)) = None ->
    Queue.previousTrack (queue (this s)) = None ->
    loop_policy_reason reason ->
    let s' := snd (_eventHandler (TrackEndEvent reason) E s) in
    fst (_eventHandler (TrackEndEvent reason) E s) = Ok tt
    /\ In (Emit queueEmpty) (log s')
    /\ queue (this s') = queue (this s)
    /\ rest_calls (log s') = rest_calls (log s).
Proof.
  intros E s reason Hloop Hcur Hprev [Hrep Hfail].
  change (wp (_eventHandler (TrackEndEvent reason)) E s (fun r s' =>
    r = Ok tt
    /\ In (Emit queueEmpty) (log s')
    /\ queue (this s') = queue (this s)
    /\ rest_calls (log s') = rest_calls (log s))).
  unfold _eventHandler.
  destruct (loop (this s)) eqn:Hl; [congruence | |];
    repeat (step; rewrite ?Hprev; simpl).
  all: repeat split;
    [ rewrite !in_app_iff; simpl; tauto
    | destruct (queue (this s)); simpl in *; subst; reflexivity ].
Qed.

Lemma loop_without_a_played_track_reports_queue_empty_witness :
  let s := with_loop PlayerLoop.QUEUE (queued [track_A; track_B]) in
  let s' := snd (_eventHandler (TrackEndEvent "finished") calm s) in
  In (Emit queueEmpty) (log s')
  /\ Queue.items (queue (this s')) = [track_A; track_B].
Proof.
  simpl.
  pose proof (loop_without_a_played_track_reports_queue_empty calm
                (with_loop PlayerLoop.QUEUE (queued [track_A; track_B]))
                (reason := "finished")
                ltac:(discriminate) eq_refl eq_refl (conj eq_refl eq_refl))
    as (_ & Hin & Hq & _).
  split; [exact Hin | exact (f_equal Queue.items Hq)].
Defined.

(** *** Loop mode QUEUE and plain advance *)

Lemma finish_in_queue_loop E s A :
  rest_resolves E ->
  loop (this s) = PlayerLoop.QUEUE ->
  Queue.currentTrack (queue (this s)) = Some A ->
  Forall resolved (A :: Queue.items (queue (this s))) ->
  fst (_eventHandler (TrackEndEvent "finished") E s) = Ok tt
  /\ loop (this (finish E s)) = PlayerLoop.QUEUE
  /\ Queue.previousTrack (queue (this (finish E s))) = Some A
  /\ exists hd tl,
       Queue.items (queue (this s)) ++ [A] = hd :: tl
       /\ Queue.currentTrack (queue (this (finish E s))) = Some hd
       /\ Queue.items (queue (this (finish E s))) = tl.
Proof.
  intros HR Hloop Hcur Hall.
  unfold finish.
  change (wp (_eventHandler (TrackEndEvent "finished")) E s (fun r s' =>
    r = Ok tt
    /\ loop (this s') = PlayerLoop.QUEUE
    /\ Queue.previousTrack (queue (this s')) = Some A
    /\ exists hd tl,
         Queue.items (queue (this s)) ++ [A] = hd :: tl
         /\ Queue.currentTrack (queue (this s')) = Some hd
         /\ Queue.items (queue (this s')) = tl)).
  unfold rest_resolves in HR.
  inversion Hall as [|? ? HA Hrest]; subst.
  unfold resolved in HA.
  assert (HnA : negb (truthy_opt (Track.track A)) = false) by (rewrite HA; reflexivity).
  unfold _eventHandler.
  destruct (Queue.items (queue (this s))) as [|B pending] eqn:Hq.
  - repeat (step; unfold Queue.length, Queue.shift; simpl;
            rewrite ?Hq, ?HR; simpl).
    repeat split; eauto.
  - inversion Hrest as [|? ? HB _]; subst. unfold resolved in HB.
    assert (HnB : negb (truthy_opt (Track.track B)) = false) by (rewrite HB; reflexivity).
    repeat (step; unfold Queue.length, Queue.shift; simpl;
            rewrite ?Hq, ?HR; simpl).
    repeat split; eauto.
Qed.

(** X15. In loop mode QUEUE the track that finished goes to the back of
    the queue and the next one is played: with every queued track resolved
    and the REST calls resolving, the play order (current track, then
    pending tracks) after the handler is the play order before it with its
    first track moved to the end, and the finished track is the previous
    track.  With nothing pending the finished track is played again. *)
Theorem queue_loop_rotates_the_play_order :
  forall (E : Env) (s : St) (A : Track.t),
    rest_resolves E ->
    loop (this s) = PlayerLoop.QUEUE ->
    Queue.currentTrack (queue (this s)) = Some A ->
    Forall resolved (play_order (queue (this s))) ->
    play_order (queue (this (finish E s))) = rotate (play_order (queue (this s)))
    /\ Queue.previousTrack (queue (this (finish E s))) = Some A
    /\ loop (this (finish E s)) = PlayerLoop.QUEUE.
Proof.
  intros E s A HR Hloop Hcur Hall.
  unfold play_order in *. rewrite Hcur in *.
  destruct (@finish_in_queue_loop E s A HR Hloop Hcur Hall)
    as (_ & Hl & Hp & hd & tl & Heq & Hc & Hi).
  rewrite Hc, Hi. simpl. auto.
Qed.

Lemma queue_loop_rotates_the_play_order_witness :
  let s := with_loop PlayerLoop.QUEUE (looping [track_B] track_A) in
  play_order (queue (this (finish calm s))) = [track_B; track_A].
Proof.
  refine (proj1 (@queue_loop_rotates_the_play_order calm
                   (with_loop PlayerLoop.QUEUE (looping [track_B] track_A))
                   track_A (fun _ _ => eq_refl) eq_refl eq_refl _)).
  repeat constructor.
Defined.

Lemma iter_rotate l1 : forall l2,
  Nat.iter (List.length l1) rotate (l1 ++ l2) = l2 ++ l1.
Proof.
  induction l1 as [|x l1 IH]; intros l2.
  - simpl. symmetry. apply app_nil_r.
  - cbn [List.length]. rewrite Nat.iter_succ_r. simpl.
    rewrite <- app_assoc. rewrite IH. rewrite <- app_assoc. reflexivity.
Qed.

Lemma rotate_resolved l : Forall resolved l -> Forall resolved (rotate l).
Proof.
  destruct l as [|x l]; simpl; [auto|].
  intros H. inversion H; subst. apply Forall_app. auto.
Qed.

Lemma finish_iterated E s A n :
  rest_resolves E ->
  loop (this s) = PlayerLoop.QUEUE ->
  Queue.currentTrack (queue (this s)) = Some A ->
  Forall resolved (play_order (queue (this s))) ->
  loop (this (Nat.iter n (finish E) s)) = PlayerLoop.QUEUE
  /\ (exists B, Queue.currentTrack (queue (this (Nat.iter n (finish E) s))) = Some B)
  /\ play_order (queue (this (Nat.iter n (finish E) s)))
     = Nat.iter n rotate (play_order (queue (this s))).
Proof.
  intros HR Hloop Hcur Hall.
  induction n as [|n (Hl & (B & HB) & Hpo)]; [simpl; eauto|].
  rewrite !Nat.iter_succ.
  assert (Hall' : Forall resolved (play_order (queue (this (Nat.iter n (finish E) s))))).
  { rewrite Hpo. clear -Hall. induction n; [assumption|].
    rewrite Nat.iter_succ. apply rotate_resolved. assumption. }
  destruct (@queue_loop_rotates_the_play_order E (Nat.iter n (finish E) s) B
              HR Hl HB Hall')
    as (Hrot & _ & Hl').
  split; [exact Hl'|]. split.
  - assert (Hall'' := Hall'). unfold play_order in Hall''. rewrite HB in Hall''.
    destruct (@finish_in_queue_loop E (Nat.iter n (finish E) s) B HR Hl HB Hall'')
      as (_ & _ & _ & hd & tl & _ & Hc & _).
    eauto.
  - rewrite Hrot, Hpo. reflexivity.
Qed.

(** X16. Loop mode QUEUE goes round the whole queue: with every queued
    track resolved and the REST calls resolving, after as many finished
    tracks as the play order has tracks, the play order is exactly the one
    the player started with. *)
Theorem queue_loop_comes_back_to_the_start :
  forall (E : Env) (s : St) (A : Track.t),
    rest_resolves E ->
    loop (this s) = PlayerLoop.QUEUE ->
    Queue.currentTrack (queue (this s)) = Some A ->
    Forall resolved (play_order (queue (this s))) ->
    play_order (queue (this (Nat.iter (List.length (play_order (queue (this s))))
                                      (finish E) s)))
    = play_order (queue (this s)).
Proof.
  intros E s A HR Hloop Hcur Hall.
  destruct (@finish_iterated E s A (List.length (play_order (queue (this s))))
              HR Hloop Hcur Hall)
    as (_ & _ & Hpo).
  rewrite Hpo.
  rewrite <- (app_nil_r (play_order (queue (this s)))) at 2.
  rewrite iter_rotate. reflexivity.
Qed.

Lemma queue_loop_comes_back_to_the_start_witness :
  let s := with_loop PlayerLoop.QUEUE (looping [track_B] track_A) in
  play_order (queue (this (Nat.iter (List.length (play_order (queue (this s))))
                                    (finish calm) s)))
  = play_order (queue (this s)).
Proof.
  intros s.
  apply (@queue_loop_comes_back_to_the_start calm s track_A).
  - intros n c. reflexivity.
  - reflexivity.
  - reflexivity.
  - repeat constructor.
Defined.

(** X17. Without loop and autoplay the handler advances the queue in FIFO
    order: when a track ends for a reason left to the loop policy, the head
    of the pending tracks (resolved) becomes the current track, the other
    pending tracks stay in order, the track that ended is archived as
    previous track and announced with track-end, and the player is marked
    playing, provided the REST call resolves. *)
Theorem track_end_advances_the_queue :
  forall (E : Env) (s : St) (reason : string) (hd : Track.t) (pending : list Track.t),
    loop (this s) = PlayerLoop.NONE ->
    isAutoplay (this s) = false ->
    loop_policy_reason reason ->
    Queue.items (queue (this s)) = hd :: pending ->
    resolved hd ->
    rest_rejects E (List.length (rest_calls (log s)))
                 (updatePlayer_track (guildId (this s)) (Track.track hd)) = None ->
    let s' := snd (_eventHandler (TrackEndEvent reason) E s) in
    fst (_eventHandler (TrackEndEvent reason) E s) = Ok tt
    /\ Queue.currentTrack (queue (this s')) = Some hd
    /\ Queue.items (queue (this s')) = pending
    /\ Queue.previousTrack (queue (this s')) = archived (queue (this s))
    /\ (isPlaying (this s'), isPaused (this s')) = (true, false)
    /\ In (Emit (trackEnd (archived (queue (this s))))) (log s')
    /\ ~ In (Emit queueEmpty) (skipn (List.length (log s)) (log s')).
Proof.
  intros E s reason hd pending Hloop Ha [Hrep Hfail] Hq Hres Hrest.
  assert (Hn : negb (truthy_opt (Track.track hd)) = false)
    by (unfold resolved in Hres; rewrite Hres; reflexivity).
  change (wp (_eventHandler (TrackEndEvent reason)) E s (fun r s' =>
    r = Ok tt
    /\ Queue.currentTrack (queue (this s')) = Some hd
    /\ Queue.items (queue (this s')) = pending
    /\ Queue.previousTrack (queue (this s')) = archived (queue (this s))
    /\ (isPlaying (this s'), isPaused (this s')) = (true, false)
    /\ In (Emit (trackEnd (archived (queue (this s))))) (log s')
    /\ ~ In (Emit queueEmpty) (skipn (List.length (log s)) (log s')))).
  unfold _eventHandler, archived.
  destruct (Queue.currentTrack (queue (this s))) as [cur|] eqn:Hcur;
    repeat (step; unfold Queue.length, Queue.shift; simpl; rewrite ?Hq; simpl).
  all: repeat split; try (rewrite !in_app_iff; simpl; tauto).
  all: rewrite <- !app_assoc, skipn_app, Nat.sub_diag, skipn_all; simpl;
    intros H; repeat (destruct H as [H|H]; [discriminate|]); exact H.
Qed.

Lemma track_end_advances_the_queue_witness :
  let s := with_loop PlayerLoop.NONE (looping [track_B] track_A) in
  let s' := snd (_eventHandler (TrackEndEvent "finished") calm s) in
  Queue.currentTrack (queue (this s')) = Some track_B
  /\ Queue.previousTrack (queue (this s')) = Some track_A.
Proof.
  simpl.
  pose proof (@track_end_advances_the_queue calm
                (with_loop PlayerLoop.NONE (looping [track_B] track_A))
                "finished" track_B []
                eq_refl eq_refl (conj eq_refl eq_refl) eq_refl eq_refl eq_refl)
    as (_ & Hc & _ & Hp & _).
  split; [exact Hc | exact Hp].
Defined.

(** *** The other node events *)

(** X18. When the node reports that its voice socket closed, the handler
    re-sends the voice-join packet exactly for the close codes 4015, 4009
    and 4006, then emits socket-close and a debug line and pauses the
    player on the node: the effects added to the log are, in this order,
    the debug line of the handler, the join packet (for those three codes
    only), socket-close, the debug line with the code and the REST call
    that pauses; the outcome is that of the REST call. *)
Theorem socket_closed_rejoins_on_three_codes_only :
  forall (E : Env) (s : St) (code : nat),
    let r := _eventHandler (WebSocketClosedEvent code) E s in
    let g := guildId (this s) in
    let join := sendPacket (shardId (this s))
                  (mkVoice g (Some (voiceChannelId (this s)))
                           (selfDeaf (ConnectionHandler (this s)))
                           (selfMute (ConnectionHandler (this s)))) in
    log (snd r)
    = log s
      ++ [Emit (debug ["[HarmonyLink] [Player] [Connection] Event received for player " ^^ g])]
      ++ (if (code =? 4015)%nat || (code =? 4009)%nat || (code =? 4006)%nat
          then [join] else [])
      ++ [Emit (socketClose (Queue.currentTrack (queue (this s)))
                            (WebSocketClosedEvent code));
          Emit (debug ["[HarmonyLink] [Player] [Connection] Websocket closed for player "
                       ^^ g ^^ " with status code " ^^ show_nat code]);
          Rest (updatePlayer_paused g true)]
    /\ fst r = match rest_rejects E (List.length (rest_calls (log s)))
                                  (updatePlayer_paused g true) with
               | Some err => Throw err
               | None => Ok tt
               end.
Proof.
  intros E s code.
  change (wp (_eventHandler (WebSocketClosedEvent code)) E s (fun r0 s' =>
    log s'
    = log s
      ++ [Emit (debug ["[HarmonyLink] [Player] [Connection] Event received for player "
                       ^^ guildId (this s)])]
      ++ (if (code =? 4015)%nat || (code =? 4009)%nat || (code =? 4006)%nat
          then [sendPacket (shardId (this s))
                  (mkVoice (guildId (this s)) (Some (voiceChannelId (this s)))
                           (selfDeaf (ConnectionHandler (this s)))
                           (selfMute (ConnectionHandler (this s))))]
          else [])
      ++ [Emit (socketClose (Queue.currentTrack (queue (this s)))
                            (WebSocketClosedEvent code));
          Emit (debug ["[HarmonyLink] [Player] [Connection] Websocket closed for player "
                       ^^ guildId (this s) ^^ " with status code " ^^ show_nat code]);
          Rest (updatePlayer_paused (guildId (this s)) true)]
    /\ r0 = match rest_rejects E (List.length (rest_calls (log s)))
                               (updatePlayer_paused (guildId (this s)) true) with
            | Some err => Throw err
            | None => Ok tt
            end)).
  unfold _eventHandler.
  assert (Hb : ((code =? 4015)%nat || ((code =? 4009)%nat || ((code =? 4006)%nat || false)))
               = ((code =? 4015)%nat || (code =? 4009)%nat || (code =? 4006)%nat))
    by (rewrite orb_false_r, orb_assoc; reflexivity).
  destruct ((code =? 4015)%nat || (code =? 4009)%nat || (code =? 4006)%nat) eqn:Hc;
    repeat (step; rewrite ?Hb; simpl).
  all: split; [rewrite <- !app_assoc; reflexivity | reflexivity].
Qed.

(** X19. Only the end of a track moves the queue: the handlers of track
    start, track stuck, track exception and socket closed leave the pending
    tracks, the current track and the previous track exactly as they are,
    whatever the node answers to the REST call they make. *)
Theorem only_track_end_moves_the_queue :
  forall (E : Env) (s : St) (data : LavalinkEventPacket),
    (forall reason, data <> TrackEndEvent reason) ->
    queue (this (snd (_eventHandler data E s))) = queue (this s).
Proof.
  intros E s data Hdata.
  change (wp (_eventHandler data) E s (fun _ s' => queue (this s') = queue (this s))).
  unfold _eventHandler.
  destruct data as [|reason| | |code]; [|exfalso; exact (Hdata reason eq_refl)| | |];
    repeat step; reflexivity.
Qed.

Lemma only_track_end_moves_the_queue_witness :
  queue (this (snd (_eventHandler TrackStuckEvent offline (looping [track_B] track_A))))
  = Queue.mk [track_B] (Some track_A) None.
Proof.
  apply (only_track_end_moves_the_queue offline (looping [track_B] track_A)
           (data := TrackStuckEvent)).
  intros reason. discriminate.
Defined.

(** *** autoplay *)

Lemma skip_outcome E s e :
  fst (skip E s) = Throw e -> exists n c, rest_rejects E n c = Some e.
Proof.
  change (wp skip E s (fun r _ =>
            r = Throw e -> exists n c, rest_rejects E n c = Some e)).
  unfold skip. repeat step; intros H; try discriminate.
  injection H as <-. eauto.
Qed.

(** X20. autoplay() swallows every error of its own path: whatever the
    user's hook, the search request, the lazy resolution or play() throw, it
    falls back to skip(), so the only error autoplay() can throw is the one
    of a rejected REST call (the one made by that final skip()); when the
    REST calls resolve it always resolves. *)
Theorem autoplay_only_fails_with_the_fallback_skip :
  forall (E : Env) (s : St) (previousTrack : option Track.t),
    (forall e, fst (autoplay previousTrack E s) = Throw e ->
               exists n c, rest_rejects E n c = Some e)
    /\ (rest_resolves E -> fst (autoplay previousTrack E s) = Ok tt).
Proof.
  intros E s previousTrack.
  assert (H : forall e, fst (autoplay previousTrack E s) = Throw e ->
                        exists n c, rest_rejects E n c = Some e).
  { intros e. unfold autoplay, try_catch.
    match goal with |- context [match ?body with _ => _ end] =>
      destruct body as [[[]|x] s'] end; simpl.
    - discriminate.
    - apply skip_outcome. }
  split; [exact H|].
  intros HR. destruct (fst (autoplay previousTrack E s)) as [[]|e] eqn:Hr; [reflexivity|].
  destruct (H e eq_refl) as (n & c & Hn). rewrite HR in Hn. discriminate.
Qed.

(** X21. autoplay() enqueues nothing when the search gives nothing usable:
    without a hook, for a previous track from SoundCloud whose title search
    resolves with no track or with load type "error" or "empty", it makes
    the search request and falls back to skip(), leaving the queue as it
    is. *)
Theorem autoplay_with_an_unusable_result_enqueues_nothing :
  forall (E : Env) (s : St) (prev : Track.t),
    customAutoplay E = None ->
    Track.sourceName (Track.info prev) = "soundcloud" ->
    rest_rejects E (List.length (rest_calls (log s)))
                 (loadTrack (Track.title (Track.info prev)) "scsearch") = None ->
    load_unusable (rest_loadTrack E (Track.title (Track.info prev)) "scsearch"
                                  (Track.requester (Track.info prev))) = true ->
    let s' := snd (autoplay (Some prev) E s) in
    queue (this s') = queue (this s)
    /\ In (Rest (loadTrack (Track.title (Track.info prev)) "scsearch")) (log s')
    /\ forall c, In (Rest c) (skipn (List.length (log s)) (log s')) ->
                 c = loadTrack (Track.title (Track.info prev)) "scsearch"
                 \/ c = updatePlayer_track (guildId (this s)) None.
Proof.
  intros E s prev Hhook Hsrc Hrest Hbad.
  assert (Hs : (Track.sourceName (Track.info prev) =? "soundcloud") = true)
    by (rewrite Hsrc; reflexivity).
  change (wp (autoplay (Some prev)) E s (fun _ s' =>
    queue (this s') = queue (this s)
    /\ In (Rest (loadTrack (Track.title (Track.info prev)) "scsearch")) (log s')
    /\ forall c, In (Rest c) (skipn (List.length (log s)) (log s')) ->
                 c = loadTrack (Track.title (Track.info prev)) "scsearch"
                 \/ c = updatePlayer_track (guildId (this s)) None)).
  unfold autoplay.
  repeat step.
  all: split; [reflexivity | split; [rewrite !in_app_iff; simpl; tauto |]].
  all: intros c; rewrite <- ?app_assoc, skipn_app, Nat.sub_diag, skipn_all; simpl;
    intros H; repeat (destruct H as [H|H]; [try discriminate; injection H as <-; auto|]);
    contradiction.
Qed.

Lemma autoplay_with_an_unusable_result_enqueues_nothing_witness :
  queue (this (snd (autoplay (Some track_S) calm (queued [track_A]))))
  = Queue.mk [track_A] None None.
Proof.
  exact (proj1 (@autoplay_with_an_unusable_result_enqueues_nothing calm
                  (queued [track_A]) track_S eq_refl eq_refl eq_refl eq_refl)).
Defined.
End PlayerBehaviour.

(** ** Further properties of the driver *)

Section DriverBehaviour.
Import LavalinkV4.

(** *** init, connect and the guards *)

Lemma append_not_empty (a b : string) :
  a <> EmptyString -> Nat.eqb (String.length (a ^^ b)) 0 = false.
Proof. destruct a; [congruence | reflexivity]. Qed.

(** X22. init() registers the driver and does not connect: whatever the
    manager and the node options, after init() the driver is registered,
    nothing has been sent or emitted, the socket handle and the session id
    are as before, and a second init() with the same arguments changes
    nothing. *)
Theorem init_registers_without_connecting :
  forall (E : Env) (s : St) (m : HarmonyLink) (n : NodeOptions),
    let s' := snd (init m n E s) in
    fst (init m n E s) = Ok tt
    /\ isRegistered (this s') = true
    /\ log s' = log s
    /\ wsClient (this s') = wsClient (this s)
    /\ sessionId (this s') = sessionId (this s)
    /\ init m n E s' = (Ok tt, s').
Proof.
  intros E s m n. simpl. unfold init, update, modify. simpl.
  repeat split.
  unfold isRegistered. simpl.
  destruct (secure n) as [[|]|]; rewrite !append_not_empty; try reflexivity; discriminate.
Qed.

(** X23. Before init() the driver refuses to work and touches nothing:
    connect() and request() both throw the not-registered error without
    opening a socket, calling fetch or changing the driver. *)
Theorem unregistered_driver_refuses :
  forall (E : Env) (s : St) (options : HarmonyLinkRequesterOptions),
    isRegistered (this s) = false ->
    connect E s = (Throw not_registered, s)
    /\ request options E s = (Throw not_registered, s).
Proof.
  intros E s options Hreg.
  assert (Hn : negb (isRegistered (this s)) = true) by (rewrite Hreg; reflexivity).
  split; apply wp_run.
  - unfold connect. repeat step. reflexivity.
  - unfold request. repeat step. reflexivity.
Qed.

Lemma unregistered_driver_refuses_witness :
  connect sample_remote (mkSt new []) = (Throw not_registered, mkSt new [])
  /\ request load_request sample_remote (mkSt new []) = (Throw not_registered, mkSt new []).
Proof.
  exact (@unregistered_driver_refuses sample_remote (mkSt new []) load_request eq_refl).
Defined.

Lemma sessions_path sessionId :
  str_includes "/sessions" ("/sessions/" ^^ sessionId) = true.
Proof. reflexivity. Qed.

(** X24. A session-scoped request is refused until the node has assigned a
    session: on a registered driver without session id, request() with a
    path that contains "/sessions" throws without calling fetch, and so
    does updateSessions() for every session id, resuming mode and
    timeout. *)
Theorem session_paths_need_a_session :
  forall (E : Env) (s : St),
    isRegistered (this s) = true ->
    sessionId (this s) = None ->
    (forall options,
        str_includes "/sessions" (path options) = true ->
        exists err, request options E s = (Throw err, s))
    /\ (forall id mode timeout,
        exists err, updateSessions id mode timeout E s = (Throw err, s)).
Proof.
  intros E s Hreg Hsess.
  assert (Hn : negb (isRegistered (this s)) = false) by (rewrite Hreg; reflexivity).
  assert (Hreq : forall options,
             str_includes "/sessions" (path options) = true ->
             exists err, request options E s = (Throw err, s)).
  { intros options Hpath. eexists. apply wp_run. unfold request.
    repeat (step; rewrite ?Hpath, ?Hsess; simpl). reflexivity. }
  split; [exact Hreq|].
  intros id mode timeout.
  destruct (Hreq (mkOptions ("/sessions/" ^^ id) PATCH None None [])
                 (sessions_path id)) as (err & Herr).
  exists err. unfold updateSessions, bind. rewrite Herr. reflexivity.
Qed.

Lemma session_paths_need_a_session_witness :
  exists err, updateSessions "abc" true 60 sample_remote registered
              = (Throw err, registered).
Proof.
  exact (proj2 (@session_paths_need_a_session sample_remote registered eq_refl eq_refl)
           "abc" true 60).
Defined.



(** *** request: the response policy *)





(** X27. The version probe is answered as it comes: for a path that starts
    with "/version", request() makes one GET to the node's address followed
    by the path (without the /v4 prefix), with the default headers only, and
    resolves with the body decoded by content type whatever the status of
    the response. *)
Theorem version_probe_ignores_the_status :
  forall (E : Env) (s : St) (options : HarmonyLinkRequesterOptions)
         (n : NodeOptions) (res : FetchResponse),
    isRegistered (this s) = true ->
    node (this s) = Some n ->
    String.prefix "/version" (path options) = true ->
    str_includes "/sessions" (path options) = false ->
    fetch_answer E (List.length (filter is_fetch (log s)))
                 (mkFetch (httpUrl (this s) ^^ path options) None GET
                          (default_headers (this s)) None)
    = Ok res ->
    request options E s
    = (match content_type res with
       | Some ct =>
           if ct =? "application/json"
           then match res_json res with
                | Ok j => Ok (Some (json j))
                | Throw err => Throw err
                end
           else Ok (Some (text (res_text res)))
       | None => Ok (Some (text (res_text res)))
       end,
       mkSt (this s)
            (log s ++ [fetch (mkFetch (httpUrl (this s) ^^ path options) None GET
                                      (default_headers (this s)) None)])).
Proof.
  intros E s options n res Hreg Hn Hver Hsess Hfetch.
  assert (Hneg : negb (isRegistered (this s)) = false) by (rewrite Hreg; reflexivity).
  unfold default_headers in *. rewrite Hn in *.
  apply wp_run. unfold request.
  repeat (step; rewrite ?Hsess; simpl); reflexivity.
Qed.

Lemma version_probe_ignores_the_status_witness :
  fst (request (mkOptions "/version" GET None None [])
               (remote_status 503 "Service Unavailable") registered)
  = Ok (Some (json (JOther "{}"))).
Proof.
  exact (f_equal fst
    (@version_probe_ignores_the_status
       (remote_status 503 "Service Unavailable") registered
       (mkOptions "/version" GET None None []) sample_node
       (mkResponse 503 "Service Unavailable" (Some "application/json")
                   (Ok (JOther "{}")) "{}")
       eq_refl eq_refl eq_refl eq_refl eq_refl)).
Defined.

(** *** request: decoding *)



(** X29. A single-track decode request (path /decodetrack with the encoded
    track in the [encodedTrack] parameter and no body) behaves as a batch of
    one: it gives the same outcome and the same log as the batch request for
    that one track, so a track the decoder cannot resolve goes to the
    node's batch endpoint /v4/decodetracks. *)
Theorem single_decode_is_a_batch_of_one :
  forall (E : Env) (s : St) (track : string),
    isRegistered (this s) = true ->
    request (decode_one_request track) E s = request (decode_request [track]) E s.
Proof.
  intros E s track Hreg.
  assert (Hneg : negb (isRegistered (this s)) = false) by (rewrite Hreg; reflexivity).
  destruct (isRegistered_node _ Hreg) as (m & n & Hm & Hn).
  destruct (decoder E track) as [td|] eqn:Hd;
    apply wp_run; unfold request at 1;
    repeat (step; rewrite ?Hn, ?Hd; simpl);
    symmetry; apply wp_run; unfold request;
    repeat (step; rewrite ?Hn, ?Hd; simpl); reflexivity.
Qed.

Lemma single_decode_is_a_batch_of_one_witness :
  request (decode_one_request "not-a-track") sample_remote registered
  = request (decode_request ["not-a-track"]) sample_remote registered.
Proof.
  exact (@single_decode_is_a_batch_of_one sample_remote registered "not-a-track" eq_refl).
Defined.

(** *** wsClose *)

End DriverBehaviour.
